(** * ipproto: IP protocol numbers and their IANA names

    A shallow embedding of [protocols.go].  Go strings are byte strings
    ([string]), Go's [int] is the 64-bit integer of a 64-bit platform,
    carried in [Z], the three package-level maps are [gmap]s (with Go's nil
    map kept apart from the empty one), and the package-level variables
    form one record that every exported function reads and returns.  A
    function that changes the variables returns its result with the new
    state, inside an [option]: [None] stands for a call that does not
    return.  The mutex serialises the calls, so each one is taken as a
    whole. *)

From Stdlib Require Import ZArith Ascii String List Lia.
From stdpp Require Import base option list gmap strings.

Local Open Scope Z_scope.

(** ** Go's [int] *)

Definition intSize : Z := 64.
Definition maxInt : Z := 2 ^ (intSize - 1) - 1.
Definition minInt : Z := - 2 ^ (intSize - 1).

(** [n++] on an [int]: two's complement wrap-around. *)
Definition incr (n : Z) : Z := if n =? maxInt then minInt else n + 1.

(** ** Byte-level helpers of package [strings] and [strconv]

    These work on bytes whatever the encoding, so they are defined here. *)
Module Bytes.

Definition byteOf (c : ascii) : Z := Z.of_N (N_of_ascii c).

Definition dash : ascii := "-"%char.
Definition plus : ascii := "+"%char.
Definition comma : ascii := ","%char.
Definition hash : ascii := "#"%char.
Definition quote : ascii := ascii_of_nat 34.
Definition LF : ascii := ascii_of_nat 10.
Definition CR : ascii := ascii_of_nat 13.

(** [s[0] < '0' || s[0] > '9'] is the negation of this test. *)
Definition isDigit (c : ascii) : bool :=
  (48 <=? byteOf c) && (byteOf c <=? 57).

(** [strings.IndexByte(s, c)], with [None] for -1. *)
Fixpoint IndexByte (s : string) (c : ascii) : option nat :=
  match s with
  | EmptyString => None
  | String x r =>
      if Ascii.eqb x c then Some O else S <$> IndexByte r c
  end.

Fixpoint takeS (n : nat) (s : string) : string :=
  match n, s with
  | S k, String x r => String x (takeS k r)
  | _, _ => EmptyString
  end.

Fixpoint dropS (n : nat) (s : string) : string :=
  match n, s with
  | S k, String _ r => dropS k r
  | _, _ => s
  end.

(** [strings.Contains(s, sep)] for a one-byte separator. *)
Definition Contains (s : string) (sep : ascii) : bool :=
  bool_decide (is_Some (IndexByte s sep)).

(** [strings.SplitN(s, sep, 2)] for a one-byte separator: at most two
    pieces, cut at the first occurrence. *)
Definition SplitN2 (s : string) (sep : ascii) : list string :=
  match IndexByte s sep with
  | Some i => [takeS i s; dropS (S i) s]
  | None => [s]
  end.

(** [strings.Split(s, sep)] for a one-byte separator. *)
Fixpoint Split (s : string) (sep : ascii) : list string :=
  match s with
  | EmptyString => [EmptyString]
  | String x r =>
      if Ascii.eqb x sep then EmptyString :: Split r sep
      else match Split r sep with
           | [] => [String x EmptyString]
           | p :: ps => String x p :: ps
           end
  end.

(** [strings.Join(elems, sep)]. *)
Fixpoint Join (elems : list string) (sep : string) : string :=
  match elems with
  | [] => EmptyString
  | [x] => x
  | x :: r => x +:+ sep +:+ Join r sep
  end.

(** The value of a non-empty run of decimal digits, most significant
    first; [None] when a byte is not a digit. *)
Fixpoint digitsFrom (acc : Z) (s : string) : option Z :=
  match s with
  | EmptyString => Some acc
  | String c r =>
      if isDigit c then digitsFrom (acc * 10 + (byteOf c - 48)) r else None
  end.

(** [strconv.Atoi]: an optional sign, then one or more decimal digits; a
    value outside [int] is a range error.  [None] stands for a non-nil
    error, whose text the package never looks at. *)
Definition Atoi (s : string) : option Z :=
  match s with
  | EmptyString => None
  | String c r =>
      let neg := Ascii.eqb c dash in
      let ds := if neg || Ascii.eqb c plus then r else s in
      match ds with
      | EmptyString => None
      | _ =>
          n ← digitsFrom 0 ds;
          let v := if neg then - n else n in
          if (minInt <=? v) && (v <=? maxInt) then Some v else None
      end
  end.

End Bytes.
Export Bytes.

(** ** What the package takes from its environment

    [strings.TrimSpace], [ToUpper], [ToLower] and [Fields] consult the
    Unicode tables once a byte is not ASCII; [encoding/csv] and [os] are
    libraries of their own, and the embedded file is not part of the
    sources.  The package is verified against any implementation of this
    interface; [asciiGo] below is the one that the Go functions reduce to
    on ASCII input. *)
Class GoLib := {
  TrimSpace : string → string;
  ToUpper : string → string;
  ToLower : string → string;
  Fields : string → list string;
  (** [csv.NewReader(r)] with [Comma = ','], [Comment = '#'] and
      [FieldsPerRecord = -1], then [ReadAll()], on the bytes that [r]
      delivers: the error's text, or the records. *)
  ReadAll : string → string + list (list string);
  (** [os.Open(path)]: the error's text, or the bytes of the file. *)
  Open : string → string + string;
  (** The bytes of [protocol-numbers.csv], embedded at build time. *)
  embeddedCSV : string;
}.

(** ** Data model *)

(** One row (or range) of the IANA protocol numbers CSV. *)
Record Entry := {
  DecimalStart : Z;      (* first number in the range *)
  DecimalEnd : Z;        (* last number in the range *)
  Keyword : string;      (* short name *)
  Protocol : string;     (* long name *)
  IPv6ExtHdr : string;
  Reference : string;
}.

#[export] Instance Entry_eq_dec : EqDecision Entry.
Proof. solve_decision. Defined.

(** The errors the package builds with [fmt.Errorf]; a wrapped error keeps
    the text of its cause. *)
Inductive error :=
  | ErrEmbeddedEmpty            (* embedded CSV is empty *)
  | ErrOpen (cause : string)    (* open protocols csv: %w *)
  | ErrRead (cause : string)    (* read protocols csv: %w *)
  | ErrCsvEmpty.                (* protocols csv is empty *)

(** The errors of [parseDecimalField]. *)
Inductive decimalError :=
  | EmptyDecimal | NonNumeric | InvalidRange | RangeEndBeforeStart
  | InvalidDecimal.

(** The package-level variables.  A map is [None] while it is Go's nil
    map.  A [*Entry] is carried as the [Entry] it points to: an element of
    [entries] is never written after it has been appended, and [append]
    copies elements unchanged.  [loadOnce] is the done flag of the
    [sync.Once]. *)
Record state := {
  entries : list Entry;
  byNumber : option (gmap Z Entry);
  byKeyword : option (gmap string Entry);
  byProtocolName : option (gmap string Entry);
  loadOnce : bool;
  loadErr : option error;
}.

(** The state of a program that has not yet called the package. *)
Definition initial : state :=
  {| entries := []; byNumber := None; byKeyword := None;
     byProtocolName := None; loadOnce := false; loadErr := None |}.

(** Reading a map: [v, ok := m[k]]; a nil map reads as an empty one. *)
Definition mapGet `{Countable K} {V} (m : option (gmap K V)) (k : K)
  : option V := g ← m; g !! k.

(** Writing a map: [m[k] = v].  Go panics on a nil map, so there is no
    state to go on with. *)
Definition mapSet `{Countable K} {V} (m : option (gmap K V)) (k : K) (v : V)
  : option (option (gmap K V)) := g ← m; Some (Some (<[k := v]> g)).

(** Assignments to the package-level variables. *)
Definition setEntries (l : list Entry) (st : state) : state :=
  {| entries := l; byNumber := byNumber st; byKeyword := byKeyword st;
     byProtocolName := byProtocolName st; loadOnce := loadOnce st;
     loadErr := loadErr st |}.

Definition setByNumber (m : option (gmap Z Entry)) (st : state) : state :=
  {| entries := entries st; byNumber := m; byKeyword := byKeyword st;
     byProtocolName := byProtocolName st; loadOnce := loadOnce st;
     loadErr := loadErr st |}.

Definition setByKeyword (m : option (gmap string Entry)) (st : state) : state :=
  {| entries := entries st; byNumber := byNumber st; byKeyword := m;
     byProtocolName := byProtocolName st; loadOnce := loadOnce st;
     loadErr := loadErr st |}.

Definition setByProtocolName (m : option (gmap string Entry)) (st : state)
  : state :=
  {| entries := entries st; byNumber := byNumber st;
     byKeyword := byKeyword st; byProtocolName := m;
     loadOnce := loadOnce st; loadErr := loadErr st |}.

Definition setLoadOnce (done : bool) (st : state) : state :=
  {| entries := entries st; byNumber := byNumber st;
     byKeyword := byKeyword st; byProtocolName := byProtocolName st;
     loadOnce := done; loadErr := loadErr st |}.

Definition setLoadErr (err : option error) (st : state) : state :=
  {| entries := entries st; byNumber := byNumber st;
     byKeyword := byKeyword st; byProtocolName := byProtocolName st;
     loadOnce := loadOnce st; loadErr := err |}.

(** A [for] loop over the elements of a list, threading the state; [None]
    once a step does not return. *)
Fixpoint forEach {A S : Type} (body : A → S → option S) (l : list A) (s : S)
  : option S :=
  match l with
  | [] => Some s
  | x :: r => s' ← body x s; forEach body r s'
  end.

Section Package.
Context {L : GoLib}.

(** *** Parsing the fields *)

Definition parseDecimalField (s : string) : decimalError + Z * Z :=
  let s := TrimSpace s in
  match s with
  | EmptyString => inl EmptyDecimal
  | String c _ =>
      if negb (isDigit c) then inl NonNumeric
      else if Contains s dash then
        match SplitN2 s dash with
        | [p0; p1] =>
            let a := TrimSpace p0 in
            let b := TrimSpace p1 in
            match Atoi a, Atoi b with
            | Some start, Some end_ =>
                if end_ <? start then inl RangeEndBeforeStart
                else inr (start, end_)
            | _, _ => inl InvalidRange
            end
        | _ => inl InvalidRange
        end
      else
        match Atoi s with
        | Some n => inr (n, n)
        | None => inl InvalidDecimal
        end
  end.

Definition normalizeProtoName (s : string) : string :=
  let s := ToLower (TrimSpace s) in
  Join (Fields s) " ".

(** *** Filling the indexes *)

(** [byNumber[n] = entryPtr] *)
Definition bindNumber (e : Entry) (n : Z) (st : state) : option state :=
  m ← mapSet (byNumber st) n e; Some (setByNumber m st).

(** [for n := start; n <= end; n++ { byNumber[n] = entryPtr }], one
    iteration per unit of fuel. *)
Fixpoint fillLoop (fuel : nat) (n end_ : Z) (e : Entry) (st : state)
  : option state :=
  match fuel with
  | O => None
  | S k =>
      if n <=? end_
      then st' ← bindNumber e n st; fillLoop k (incr n) end_ e st'
      else Some st
  end.

(** The same loop without fuel.  With [end_ = maxInt] the test
    [n <= end_] holds for every [int], so the loop never exits
    ([fillLoop_maxInt]); otherwise it runs once for each of
    [start, ..., end_] and exits ([fillLoop_returns]). *)
Definition fillByNumber (start end_ : Z) (e : Entry) (st : state)
  : option state :=
  if end_ =? maxInt then None
  else forEach (bindNumber e) (seqZ start (end_ - start + 1)) st.

(** [if _, exists := byKeyword[k]; !exists { byKeyword[k] = entryPtr }] *)
Definition bindKeyword (k : string) (e : Entry) (st : state) : option state :=
  match mapGet (byKeyword st) k with
  | Some _ => Some st
  | None => m ← mapSet (byKeyword st) k e; Some (setByKeyword m st)
  end.

Definition bindProtocolName (p : string) (e : Entry) (st : state)
  : option state :=
  match mapGet (byProtocolName st) p with
  | Some _ => Some st
  | None =>
      m ← mapSet (byProtocolName st) p e; Some (setByProtocolName m st)
  end.

(** [for len(row) < 5 { row = append(row, "") }] *)
Definition pad5 (row : list string) : list string :=
  row ++ replicate (5 - length row) EmptyString.

(** [row[i]] of a padded row. *)
Definition col (row : list string) (i : nat) : string :=
  default EmptyString (pad5 row !! i).

(** The body of the loop over the records. *)
Definition processRow (row : list string) (st : state) : option state :=
  match row with
  | [] => Some st
  | _ =>
      let decField := TrimSpace (col row 0) in
      let keyword := TrimSpace (col row 1) in
      let proto := TrimSpace (col row 2) in
      let ipv6ext := TrimSpace (col row 3) in
      let ref := TrimSpace (col row 4) in
      if bool_decide (decField = EmptyString) then Some st
      else match parseDecimalField decField with
      | inl _ => Some st
      | inr (start, end_) =>
          let e := {| DecimalStart := start; DecimalEnd := end_;
                      Keyword := keyword; Protocol := proto;
                      IPv6ExtHdr := ipv6ext; Reference := ref |} in
          let st := setEntries (entries st ++ [e]) st in
          st ← fillByNumber start end_ e st;
          st ← (if bool_decide (keyword = EmptyString) then Some st
                else bindKeyword (ToUpper keyword) e st);
          if bool_decide (proto = EmptyString) then Some st
          else bindProtocolName (normalizeProtoName proto) e st
      end
  end.

(** [entries = nil] and the three [make]s. *)
Definition resetTables (st : state) : state :=
  setByProtocolName (Some ∅)
    (setByKeyword (Some ∅) (setByNumber (Some ∅) (setEntries [] st))).

(** [loadFromReaderLocked(r)] on the bytes of [r]: the returned error and
    the state left behind, or [None] when the call does not return. *)
Definition loadFromReaderLocked (r : string) (st : state)
  : option (option error * state) :=
  match ReadAll r with
  | inl err => Some (Some (ErrRead err), st)
  | inr records =>
      if bool_decide (length records = 0%nat) then Some (Some ErrCsvEmpty, st)
      else
        st ← forEach processRow (drop 1 records) (resetTables st);
        Some (None, st)
  end.

(** [loadFromReader] takes the lock and calls the above. *)
Definition loadFromReader (r : string) (st : state)
  : option (option error * state) := loadFromReaderLocked r st.

(** [loadOnce.Do(f)] runs [f] unless the flag is set, and sets it. *)
Definition ensureLoaded (st : state) : option (option error * state) :=
  if loadOnce st then Some (loadErr st, st)
  else
    st ← (if bool_decide (String.length embeddedCSV = 0%nat)
          then Some (setLoadErr (Some ErrEmbeddedEmpty) st)
          else '(err, st) ← loadFromReader embeddedCSV st;
               Some (setLoadErr err st));
    let st := setLoadOnce true st in
    Some (loadErr st, st).

Definition LoadFromReader (r : string) (st : state)
  : option (option error * state) :=
  let st := setLoadOnce false st in
  let st := setLoadErr None st in
  loadFromReaderLocked r st.

Definition LoadFromFile (path : string) (st : state)
  : option (option error * state) :=
  match Open path with
  | inl err => Some (Some (ErrOpen err), st)
  | inr f => LoadFromReader f st
  end.

(** *** Queries

    Each query is [ensureLoaded] followed by a read of the tables under
    the read lock; the read is a function of the state. *)

Definition readByNumber (st : state) (n : Z) : option Entry * bool :=
  match byNumber st with
  | None => (None, false)
  | Some _ =>
      match mapGet (byNumber st) n with
      | Some e => (Some e, true)
      | None => (None, false)
      end
  end.

Definition LookupByNumber (n : Z) (st : state)
  : option ((option Entry * bool) * state) :=
  '(err, st) ← ensureLoaded st;
  match err with
  | Some _ => Some ((None, false), st)
  | None => Some (readByNumber st n, st)
  end.

Definition readDecimal (st : state) (name : string) : Z * bool :=
  if bool_decide (byKeyword st = None) && bool_decide (byProtocolName st = None)
  then (0, false)
  else
    let name := TrimSpace name in
    if bool_decide (name = EmptyString) then (0, false)
    else match mapGet (byKeyword st) (ToUpper name) with
    | Some e => (DecimalStart e, true)
    | None =>
        match mapGet (byProtocolName st) (normalizeProtoName name) with
        | Some e => (DecimalStart e, true)
        | None => (0, false)
        end
    end.

Definition LookupDecimal (name : string) (st : state)
  : option ((Z * bool) * state) :=
  '(err, st) ← ensureLoaded st;
  match err with
  | Some _ => Some ((0, false), st)
  | None => Some (readDecimal st name, st)
  end.

Definition LookupKeyword (n : Z) (st : state)
  : option ((string * bool) * state) :=
  '(r, st) ← LookupByNumber n st;
  match r with
  | (Some e, true) =>
      if bool_decide (Keyword e = EmptyString) then Some ((EmptyString, false), st)
      else Some ((Keyword e, true), st)
  | _ => Some ((EmptyString, false), st)
  end.

Definition LookupProtocolName (n : Z) (st : state)
  : option ((string * bool) * state) :=
  '(r, st) ← LookupByNumber n st;
  match r with
  | (Some e, true) =>
      if bool_decide (Protocol e = EmptyString) then Some ((EmptyString, false), st)
      else Some ((Protocol e, true), st)
  | _ => Some ((EmptyString, false), st)
  end.

End Package.

(** ** The environment on ASCII input

    On a string whose bytes are all below 0x80 the functions of package
    [strings] work byte by byte, as below; a byte from 0x80 on is copied
    and is not a space here, which is outside what Go does.  The reader
    covers sources without quoted fields: it answers a quote character
    with an error, as Go does for a bare quote in an unquoted field.
    The examples run on it, with ASCII sources without quotes; the
    theorems are about every [GoLib], and where one needs what package
    [strings] computes, it assumes so, for ASCII strings. *)
Module AsciiLib.

(** Go's [asciiSpace] table: tab, newline, vertical tab, form feed,
    carriage return, space. *)
Definition isSpace (c : ascii) : bool :=
  ((9 <=? byteOf c) && (byteOf c <=? 13)) || (byteOf c =? 32).

Fixpoint trimLeft (s : string) : string :=
  match s with
  | EmptyString => EmptyString
  | String c r => if isSpace c then trimLeft r else s
  end.

Fixpoint trimRight (s : string) : string :=
  match s with
  | EmptyString => EmptyString
  | String c r =>
      match trimRight r with
      | EmptyString => if isSpace c then EmptyString else String c EmptyString
      | r' => String c r'
      end
  end.

Definition trimSpace (s : string) : string := trimRight (trimLeft s).

(** Every byte is a space of the table. *)
Fixpoint allSpace (s : string) : bool :=
  match s with
  | EmptyString => true
  | String c r => isSpace c && allSpace r
  end.

(** No byte is a space of the table. *)
Fixpoint spaceFree (s : string) : bool :=
  match s with
  | EmptyString => true
  | String c r => negb (isSpace c) && spaceFree r
  end.

(** What [strings.Fields] returns: strings that are not empty and hold no
    space. *)
Definition word (w : string) : Prop := w ≠ EmptyString ∧ spaceFree w = true.

(** The strings on which the functions above are what Go computes: every
    byte is below 0x80. *)
Definition isASCIIByte (c : ascii) : bool := byteOf c <? 128.

Fixpoint isASCII (s : string) : bool :=
  match s with
  | EmptyString => true
  | String c r => isASCIIByte c && isASCII r
  end.

(** No byte is one of [A] to [Z]. *)
Fixpoint noUpper (s : string) : bool :=
  match s with
  | EmptyString => true
  | String c r => negb ((65 <=? byteOf c) && (byteOf c <=? 90)) && noUpper r
  end.

(** The same letter in the other case; any other byte is left alone. *)
Definition flipCase (c : ascii) : ascii :=
  if (65 <=? byteOf c) && (byteOf c <=? 90)
  then ascii_of_N (N_of_ascii c + 32)
  else if (97 <=? byteOf c) && (byteOf c <=? 122)
  then ascii_of_N (N_of_ascii c - 32)
  else c.

(** Two spellings of a name that differ in the case of letters and in
    spaces before and after the name. *)
Inductive spelling : string → string → Prop :=
  | spelling_refl s : spelling s s
  | spelling_sym s t : spelling s t → spelling t s
  | spelling_trans s t u : spelling s t → spelling t u → spelling s u
  | spelling_case a c b :
      spelling (a +:+ String c b) (a +:+ String (flipCase c) b)
  | spelling_before w s : isSpace w = true → spelling s (String w s)
  | spelling_after w s :
      isSpace w = true → spelling s (s +:+ String w EmptyString).

(** Two spellings that may differ, besides, in their runs of spaces: a
    space may be another space of the table, and a run may be longer. *)
Inductive respelling : string → string → Prop :=
  | respelling_spelling s t : spelling s t → respelling s t
  | respelling_sym s t : respelling s t → respelling t s
  | respelling_trans s t u : respelling s t → respelling t u → respelling s u
  | respelling_other a w w' b :
      isSpace w = true → isSpace w' = true →
      respelling (a +:+ String w b) (a +:+ String w' b)
  | respelling_longer a w w' b :
      isSpace w = true → isSpace w' = true →
      respelling (a +:+ String w b) (a +:+ String w (String w' b)).

Definition upperByte (c : ascii) : ascii :=
  if (97 <=? byteOf c) && (byteOf c <=? 122)
  then ascii_of_N (N_of_ascii c - 32) else c.

Definition lowerByte (c : ascii) : ascii :=
  if (65 <=? byteOf c) && (byteOf c <=? 90)
  then ascii_of_N (N_of_ascii c + 32) else c.

Fixpoint mapBytes (f : ascii → ascii) (s : string) : string :=
  match s with
  | EmptyString => EmptyString
  | String c r => String (f c) (mapBytes f r)
  end.

Definition toUpper : string → string := mapBytes upperByte.
Definition toLower : string → string := mapBytes lowerByte.

(** [strings.Fields]: the maximal runs of non-space bytes.  [cur] is the
    run being read, last byte first. *)
Fixpoint fieldsFrom (cur : list ascii) (s : string) : list string :=
  let flush (rest : list string) :=
    match cur with
    | [] => rest
    | _ => string_of_list_ascii (rev cur) :: rest
    end in
  match s with
  | EmptyString => flush []
  | String c r =>
      if isSpace c then flush (fieldsFrom [] r) else fieldsFrom (c :: cur) r
  end.

Definition fields (s : string) : list string := fieldsFrom [] s.

Fixpoint hasByte (c : ascii) (s : string) : bool :=
  match s with
  | EmptyString => false
  | String x r => Ascii.eqb x c || hasByte c r
  end.

(** A line as [readLine] hands it over, less its newline: a carriage
    return before the newline (or before the end of input) is dropped. *)
Definition chomp (line : string) : string :=
  let n := String.length line in
  if bool_decide (dropS (n - 1) line = String CR EmptyString)
  then takeS (n - 1) line else line.

Definition isComment (line : string) : bool :=
  match line with
  | String c _ => Ascii.eqb c hash
  | EmptyString => false
  end.

(** The records of the lines, skipping comment lines and empty lines. *)
Fixpoint readLines (lines : list string) : string + list (list string) :=
  match lines with
  | [] => inr []
  | l :: rest =>
      let l := chomp l in
      if isComment l || bool_decide (l = EmptyString) then readLines rest
      else if hasByte quote l then inl "bare quote in non-quoted field"%string
      else match readLines rest with
           | inl err => inl err
           | inr recs => inr (Split l comma :: recs)
           end
  end.

Definition readAll (src : string) : string + list (list string) :=
  readLines (Split src LF).

Definition openIn (files : list (string * string)) (path : string)
  : string + string :=
  match list_find (λ f, f.1 = path) files with
  | Some (_, f) => inr f.2
  | None => inl "no such file or directory"%string
  end.

End AsciiLib.

Definition asciiGo (embedded : string) (files : list (string * string))
  : GoLib :=
  {| TrimSpace := AsciiLib.trimSpace;
     ToUpper := AsciiLib.toUpper;
     ToLower := AsciiLib.toLower;
     Fields := AsciiLib.fields;
     ReadAll := AsciiLib.readAll;
     Open := AsciiLib.openIn files;
     embeddedCSV := embedded |}.

(** ** Sample sources

    Rows of the IANA registry, and small sources built from them. *)
Module Samples.

(** The lines, each ended by a newline. *)
Definition text (lines : list string) : string :=
  fold_right (λ l rest, l +:+ String LF rest) EmptyString lines.

Definition header : string :=
  "Decimal,Keyword,Protocol,IPv6 Extension Header,Reference".

Definition registry : string :=
  text [header;
        "# IANA protocol numbers";
        "0,HOPOPT,IPv6 Hop-by-Hop Option,Y,[RFC8200]";
        "1,ICMP,Internet Control Message,,[RFC792]";
        "6,TCP,Transmission Control,,[RFC9293]";
        "Reserved,,Reserved text row,,";
        "148-252,,Unassigned,,[Internet_Assigned_Numbers_Authority]";
        "255,Reserved,,,[Internet_Assigned_Numbers_Authority]"].

Definition udpOnly : string :=
  text [header; "17,UDP,User Datagram,,[RFC768]"].

Definition overlapping : string :=
  text [header; "1-5,A,Alpha"; "3,B,Beta"].

Definition nested : string :=
  text [header; "10-20,WIDE,Wide range"; "12-14,MID,Middle range"].

Definition headerOnly : string := text [header].

(** A keyword that spells the long name of another row. *)
Definition shadowed : string :=
  text [header;
        "9,Transmission Control,Shadow,,";
        "6,TCP,Transmission Control,,[RFC9293]"].

(** A quote inside an unquoted field. *)
Definition bareQuote : string :=
  text [header; "6,T" +:+ String quote "CP,Transmission Control"].

(** The environment of the examples: the sample registry is the embedded
    file, and there are no other files. *)
Definition tab : ascii := ascii_of_nat 9.
Definition tabbed : string :=
  "transMission" +:+ String tab (String " " "control").
Definition sampleGo : GoLib := asciiGo registry [].

(** The state that a call leaves behind. *)
Definition after {A : Type} (call : option (A * state)) : state :=
  match call with
  | Some (_, st) => st
  | None => initial
  end.

(** The sample registry after the first query, and two parses. *)
Definition loaded : state := after (ensureLoaded (L := sampleGo) initial).

Definition parsedRegistry : state :=
  after (loadFromReaderLocked (L := sampleGo) registry initial).

Definition parsedOverlap : state :=
  after (loadFromReaderLocked (L := sampleGo) overlapping initial).

Definition registryRecords : list (list string) :=
  match ReadAll (GoLib := sampleGo) registry with
  | inr records => records
  | inl _ => []
  end.

(** Two rows with the same keyword and the same long name, up to case
    and spaces. *)
Definition duplicates : string :=
  text [header;
        "6,TCP,Transmission Control,,[RFC9293]";
        "7,tcp,transmission   CONTROL,,"].

Definition parsedDuplicates : state :=
  after (loadFromReaderLocked (L := sampleGo) duplicates initial).

Definition tcpAgain : Entry :=
  {| DecimalStart := 7; DecimalEnd := 7; Keyword := "tcp";
     Protocol := "transmission   CONTROL"; IPv6ExtHdr := "";
     Reference := "" |}.

(** A row whose range ends at the largest [int], between two others. *)
Definition atMaxInt : string :=
  text [header; "1,A,Alpha"; "5-9223372036854775807,BIG,Big range";
        "2,B,Beta"].

(** An environment without an embedded file. *)
Definition emptyGo : GoLib := asciiGo EmptyString [].

(** There, the state after an override with UDP alone, and after the query
    that follows it. *)
Definition overridden : state :=
  after (LoadFromReader (L := emptyGo) udpOnly initial).

Definition failed : state := after (ensureLoaded (L := emptyGo) overridden).

(** The state after an override of the sample registry with UDP alone. *)
Definition udpLoaded : state :=
  after (LoadFromReader (L := sampleGo) udpOnly loaded).

Definition tcp : Entry :=
  {| DecimalStart := 6; DecimalEnd := 6; Keyword := "TCP";
     Protocol := "Transmission Control"; IPv6ExtHdr := "";
     Reference := "[RFC9293]" |}.

Definition unassigned : Entry :=
  {| DecimalStart := 148; DecimalEnd := 252; Keyword := "";
     Protocol := "Unassigned"; IPv6ExtHdr := "";
     Reference := "[Internet_Assigned_Numbers_Authority]" |}.

Definition rowA : Entry :=
  {| DecimalStart := 1; DecimalEnd := 5; Keyword := "A"; Protocol := "Alpha";
     IPv6ExtHdr := ""; Reference := "" |}.

Definition rowB : Entry :=
  {| DecimalStart := 3; DecimalEnd := 3; Keyword := "B"; Protocol := "Beta";
     IPv6ExtHdr := ""; Reference := "" |}.

Definition wide : Entry :=
  {| DecimalStart := 10; DecimalEnd := 20; Keyword := "WIDE";
     Protocol := "Wide range"; IPv6ExtHdr := ""; Reference := "" |}.

Definition mid : Entry :=
  {| DecimalStart := 12; DecimalEnd := 14; Keyword := "MID";
     Protocol := "Middle range"; IPv6ExtHdr := ""; Reference := "" |}.

End Samples.

(** ** Vocabulary of the statements *)

(** [n] lies in the inclusive range of [e]. *)
Definition covers (n : Z) (e : Entry) : bool :=
  (DecimalStart e <=? n) && (n <=? DecimalEnd e).

(** The last entry of [l], in file order, whose range holds [n]. *)
Definition lastOwner (n : Z) (l : list Entry) : option Entry :=
  last (filter (λ e, covers n e = true) l).

(** The first entry of [l], in file order, whose range holds [n]: the owner
    of [n] under a policy where the first row to claim an integer keeps
    it. *)
Definition firstOwner (n : Z) (l : list Entry) : option Entry :=
  head (filter (λ e, covers n e = true) l).

(** The by-number index agrees with the entry list. *)
Definition indexed (st : state) : Prop :=
  ∀ n, mapGet (byNumber st) n = lastOwner n (entries st).

(** The three maps have been made. *)
Definition made (st : state) : Prop :=
  is_Some (byNumber st) ∧ is_Some (byKeyword st) ∧ is_Some (byProtocolName st).

(** The first byte is a decimal digit. *)
Definition startsWithDigit (s : string) : bool :=
  match s with
  | String c _ => isDigit c
  | EmptyString => false
  end.

Section Vocabulary.
Context {L : GoLib}.

(** An identifier that is one integer. *)
Definition isIntegerId (s : string) (n : Z) : Prop :=
  startsWithDigit s = true ∧ Contains s dash = false ∧ Atoi s = Some n.

(** An identifier that is a range [a-b], cut at its first hyphen. *)
Definition isRangeId (s : string) (a b : Z) : Prop :=
  startsWithDigit s = true ∧
  ∃ p0 p1, SplitN2 s dash = [p0; p1] ∧ Contains s dash = true ∧
           Atoi (TrimSpace p0) = Some a ∧ Atoi (TrimSpace p1) = Some b.

(** The entry that [processRow] builds from a row whose identifier
    parsed as [start, end_]. *)
Definition entryOfRow (row : list string) (start end_ : Z) : Entry :=
  {| DecimalStart := start; DecimalEnd := end_;
     Keyword := TrimSpace (col row 1); Protocol := TrimSpace (col row 2);
     IPv6ExtHdr := TrimSpace (col row 3);
     Reference := TrimSpace (col row 4) |}.

(** The identifier of a row as [parseDecimalField] reads it. *)
Definition identifier (row : list string) : string :=
  TrimSpace (TrimSpace (col row 0)).

(** The identifier is neither an integer nor a range, for one of the
    three reasons the package gives. *)
Definition refused (id : string) : Prop :=
  startsWithDigit id = false ∨
  ((∀ n, ¬ isIntegerId id n) ∧ (∀ a b, ¬ isRangeId id a b)) ∨
  (∃ a b, isRangeId id a b ∧ b < a).

(** The states a program can bring the package to through its exported
    functions. *)
Inductive reachable : state → Prop :=
  | reach_initial : reachable initial
  | reach_LoadFromReader r st err st' :
      reachable st → LoadFromReader r st = Some (err, st') → reachable st'
  | reach_LoadFromFile path st err st' :
      reachable st → LoadFromFile path st = Some (err, st') → reachable st'
  | reach_LookupByNumber n st res st' :
      reachable st → LookupByNumber n st = Some (res, st') →
      reachable st'
  | reach_LookupDecimal name st res st' :
      reachable st → LookupDecimal name st = Some (res, st') →
      reachable st'
  | reach_LookupKeyword n st res st' :
      reachable st → LookupKeyword n st = Some (res, st') →
      reachable st'
  | reach_LookupProtocolName n st res st' :
      reachable st → LookupProtocolName n st = Some (res, st') →
      reachable st'.

End Vocabulary.

(** ** Vocabulary of the further properties *)

Section Tables.
Context {L : GoLib}.

(** The entry that the loop body appends for a record, if any. *)
Definition keptEntry (row : list string) : option Entry :=
  match row with
  | [] => None
  | _ =>
      if bool_decide (TrimSpace (col row 0) = EmptyString) then None
      else match parseDecimalField (TrimSpace (col row 0)) with
           | inl _ => None
           | inr (start, end_) => Some (entryOfRow row start end_)
           end
  end.

(** The first entry of [l], in file order, whose keyword is not empty and
    is [k] in upper case. *)
Definition firstKeyword (k : string) (l : list Entry) : option Entry :=
  head (filter (λ e, Keyword e ≠ EmptyString ∧ ToUpper (Keyword e) = k) l).

(** The first entry of [l], in file order, whose long name is not empty
    and normalises to [p]. *)
Definition firstProtocol (p : string) (l : list Entry) : option Entry :=
  head (filter (λ e, Protocol e ≠ EmptyString ∧
                     normalizeProtoName (Protocol e) = p) l).

(** The two name indexes agree with the entry list. *)
Definition named (st : state) : Prop :=
  (∀ k, mapGet (byKeyword st) k = firstKeyword k (entries st)) ∧
  (∀ p, mapGet (byProtocolName st) p = firstProtocol p (entries st)).

(** Every entry of the list was appended for some record, and its range
    does not end at the largest [int]. *)
Definition built (st : state) : Prop :=
  ∀ e, e ∈ entries st → DecimalEnd e ≠ maxInt ∧ ∃ row, keptEntry row = Some e.

(** The four tables of a state, without the two variables of the lazy
    loader. *)
Definition tables (st : state)
  : list Entry * option (gmap Z Entry) * option (gmap string Entry)
    * option (gmap string Entry) :=
  (entries st, byNumber st, byKeyword st, byProtocolName st).

End Tables.

(** ** What the statements take from package [strings]

    Facts of the Go functions that some statements rest on.  They hold of
    Go's [strings.TrimSpace] on every string, and of the four functions on
    ASCII strings, where Go works byte by byte. *)
Section Laws.
Context {L : GoLib}.

(** Trimming keeps a decimal digit at the front: a digit is no space. *)
Definition trimKeepsDigit : Prop :=
  ∀ s, startsWithDigit s = true → startsWithDigit (TrimSpace s) = true.

(** Trimming a trimmed string changes nothing. *)
Definition trimIdempotent : Prop :=
  ∀ s, TrimSpace (TrimSpace s) = TrimSpace s.

(** On an ASCII string the four functions are the byte-wise ones. *)
Definition asciiFaithful : Prop :=
  ∀ s, AsciiLib.isASCII s = true →
       TrimSpace s = AsciiLib.trimSpace s ∧ ToUpper s = AsciiLib.toUpper s ∧
       ToLower s = AsciiLib.toLower s ∧ Fields s = AsciiLib.fields s.

End Laws.

(** ** The range-expansion loop *)

Section FillLoop.
Context `{GoLib}.

Lemma incr_below (n end_ : Z) : n <= end_ → end_ < maxInt → incr n = n + 1.
Proof.
  intros Hle Hlt. unfold incr.
  destruct (Z.eqb_spec n maxInt); [lia | reflexivity].
Qed.

Lemma incr_range (n : Z) :
  minInt <= n <= maxInt → minInt <= incr n <= maxInt.
Proof.
  unfold incr. destruct (Z.eqb_spec n maxInt); intros; [|lia].
  unfold minInt, maxInt, intSize in *. simpl in *. lia.
Qed.

(** With enough fuel the loop returns what [fillByNumber] returns. *)
Lemma fillLoop_returns (fuel : nat) (start end_ : Z) (e : Entry) (st : state) :
  end_ < maxInt →
  (Z.to_nat (end_ - start + 1) < fuel)%nat →
  fillLoop fuel start end_ e st = fillByNumber start end_ e st.
Proof.
  intros Hmax. unfold fillByNumber.
  destruct (Z.eqb_spec end_ maxInt) as [->|_]; [lia|].
  revert start st. induction fuel as [|k IH]; intros start st Hfuel; [lia|].
  simpl. destruct (Z.leb_spec start end_) as [Hle|Hgt].
  - rewrite seqZ_cons by lia. simpl.
    destruct (bindNumber e start st) as [st'|]; [|reflexivity]. simpl.
    rewrite (incr_below start end_) by lia.
    rewrite IH by lia.
    replace (Z.succ start) with (start + 1) by lia.
    replace (Z.pred (end_ - start + 1)) with (end_ - (start + 1) + 1) by lia.
    reflexivity.
  - rewrite seqZ_nil by lia. reflexivity.
Qed.

(** With [end_ = maxInt] no amount of fuel makes the loop return. *)
Lemma fillLoop_maxInt (fuel : nat) (n : Z) (e : Entry) (st : state) :
  minInt <= n <= maxInt → fillLoop fuel n maxInt e st = None.
Proof.
  revert n st. induction fuel as [|k IH]; intros n st Hn; [reflexivity|].
  simpl. destruct (Z.leb_spec n maxInt); [|lia].
  destruct (bindNumber e n st) as [st'|]; [|reflexivity]. simpl.
  apply IH, incr_range, Hn.
Qed.

End FillLoop.

(** ** The identifier field *)

Section Identifier.
Context `{GoLib}.

Lemma digitsFrom_ge (s : string) (acc v : Z) :
  digitsFrom acc s = Some v → 0 <= acc → 0 <= v.
Proof.
  revert acc. induction s as [|c r IH]; simpl; intros acc Hv Hacc.
  - congruence.
  - destruct (isDigit c) eqn:Hc; [|discriminate].
    apply (IH _ Hv). unfold isDigit in Hc.
    apply andb_prop in Hc as [Hlo _]. apply Z.leb_le in Hlo. lia.
Qed.

Lemma isDigit_not_sign (c : ascii) :
  isDigit c = true → Ascii.eqb c dash = false ∧ Ascii.eqb c plus = false.
Proof.
  intros Hc. split; destruct (Ascii.eqb_spec c dash), (Ascii.eqb_spec c plus);
    subst; try reflexivity; discriminate Hc.
Qed.

Lemma Atoi_range (s : string) (v : Z) :
  Atoi s = Some v → minInt <= v <= maxInt.
Proof.
  destruct s as [|c r]; [discriminate|]. unfold Atoi.
  match goal with
  | |- context [match ?d with EmptyString => _ | String _ _ => _ end] =>
      destruct d; [discriminate|]
  end.
  destruct (digitsFrom _ _) as [z|]; simpl; [|discriminate].
  match goal with
  | |- context [?x <=? ?y] => destruct (Z.leb_spec x y); [|discriminate]
  end.
  match goal with
  | |- context [?x <=? ?y] => destruct (Z.leb_spec x y); [|discriminate]
  end.
  simpl. intros [= <-]. lia.
Qed.

(** An integer read from a string that starts with a digit is not
    negative. *)
Lemma Atoi_digit_nonneg (s : string) (n : Z) :
  startsWithDigit s = true → Atoi s = Some n → 0 <= n.
Proof.
  destruct s as [|c r]; [discriminate|]. simpl. intros Hc.
  destruct (isDigit_not_sign c Hc) as [-> ->]. simpl. rewrite Hc.
  destruct (digitsFrom _ r) as [v|] eqn:Hv; simpl; [|discriminate].
  destruct (_ && _); [|discriminate]. intros [= <-].
  apply (digitsFrom_ge _ _ _ Hv). unfold isDigit in Hc.
  apply andb_prop in Hc as [Hlo _]. apply Z.leb_le in Hlo. lia.
Qed.

(** What [parseDecimalField] accepts: one integer, or a range whose end
    is not below its start. *)
Lemma parseDecimalField_inr (id : string) (a b : Z) :
  parseDecimalField id = inr (a, b) ↔
  (isIntegerId (TrimSpace id) a ∧ b = a) ∨
  (isRangeId (TrimSpace id) a b ∧ a <= b).
Proof.
  unfold parseDecimalField, isIntegerId, isRangeId, SplitN2, Contains.
  destruct (TrimSpace id) as [|c r] eqn:Hs; simpl startsWithDigit.
  { split; [discriminate|]. intros [[[? _] _]|[[? _] _]]; discriminate. }
  destruct (isDigit c) eqn:Hc; simpl negb; cbv iota.
  2:{ split; [discriminate|]. intros [[[? _] _]|[[? _] _]]; discriminate. }
  destruct (IndexByte (String c r) dash) as [i|] eqn:Hi.
  - rewrite bool_decide_eq_true_2 by eauto.
    generalize (takeS i (String c r)), (dropS (S i) (String c r)).
    intros p q. split.
    + destruct (Atoi (TrimSpace p)) as [x|] eqn:Ha; [|discriminate].
      destruct (Atoi (TrimSpace q)) as [y|] eqn:Hb; [|discriminate].
      destruct (Z.ltb_spec y x); [discriminate|]. intros [= <- <-].
      right. split; [|lia]. split; [reflexivity|]. eauto 10.
    + intros [[(_ & ? & _) _]|[(_ & p0 & p1 & [= <- <-] & _ & -> & ->) Hab]];
        [discriminate|].
      destruct (Z.ltb_spec b a); [lia|reflexivity].
  - rewrite bool_decide_eq_false_2 by (intros [? ?]; discriminate).
    split.
    + destruct (Atoi (String c r)) as [n|] eqn:Hn; [|discriminate].
      intros [= <- <-]. left. auto.
    + intros [[(_ & _ & ->) ->]|[(_ & p0 & p1 & ? & _) _]];
        [reflexivity|discriminate].
Qed.

(** Every accepted identifier gives a range that is not empty, and an
    integer identifier gives a number that is not negative. *)
Lemma parseDecimalField_range (id : string) (a b : Z) :
  parseDecimalField id = inr (a, b) → a <= b ∧ a <= maxInt ∧ b <= maxInt.
Proof.
  intros Hp. assert (Hab : a <= b).
  { apply parseDecimalField_inr in Hp as [[_ ->]|[_ ?]]; lia. }
  split; [exact Hab|].
  assert (Hmax : ∀ s v, Atoi s = Some v → v <= maxInt).
  { intros s v Hv. apply Atoi_range in Hv. lia. }
  apply parseDecimalField_inr in Hp
    as [[(_ & _ & Ha) ->]|[(_ & p0 & p1 & _ & _ & Ha & Hb) _]].
  - split; exact (Hmax _ _ Ha).
  - split; [exact (Hmax _ _ Ha)|exact (Hmax _ _ Hb)].
Qed.

End Identifier.

(** ** One row *)

Section Rows.
Context `{GoLib}.

Lemma forEach_inv {A S : Type} (body : A → S → option S) (I : S → Prop)
    (l : list A) :
  (∀ x s s', x ∈ l → I s → body x s = Some s' → I s') →
  ∀ s s', I s → forEach body l s = Some s' → I s'.
Proof.
  induction l as [|x l IH]; simpl; intros Hstep s s' Hs Hrun.
  - injection Hrun as <-. exact Hs.
  - destruct (body x s) as [s1|] eqn:Hx; simpl in Hrun; [|discriminate].
    apply (IH (λ y a b Hy, Hstep y a b (list_elem_of_further _ _ _ Hy)) s1);
      [|exact Hrun].
    apply (Hstep x s); [apply list_elem_of_here|exact Hs|exact Hx].
Qed.

Lemma bindNumber_made (e : Entry) (n : Z) (st : state) (g : gmap Z Entry) :
  byNumber st = Some g →
  bindNumber e n st = Some (setByNumber (Some (<[n := e]> g)) st).
Proof. intros Hg. unfold bindNumber. rewrite Hg. reflexivity. Qed.

Lemma bindNumber_nil (e : Entry) (n : Z) (st : state) :
  byNumber st = None → bindNumber e n st = None.
Proof. intros Hg. unfold bindNumber. rewrite Hg. reflexivity. Qed.

Lemma forEach_bindNumber (e : Entry) (l : list Z) (st : state)
    (g : gmap Z Entry) :
  byNumber st = Some g →
  forEach (bindNumber e) l st
  = Some (setByNumber (Some (foldl (λ m n, <[n := e]> m) g l)) st).
Proof.
  revert st g. induction l as [|x l IH]; intros st g Hg; simpl.
  - destruct st; simpl in *; subst; reflexivity.
  - rewrite (bindNumber_made _ _ _ _ Hg). simpl.
    rewrite (IH _ (<[x := e]> g)) by reflexivity. reflexivity.
Qed.

Lemma lookup_foldl_insert (e : Entry) (l : list Z) (g : gmap Z Entry)
    (k : Z) :
  foldl (λ m n, <[n := e]> m) g l !! k
  = if bool_decide (k ∈ l) then Some e else g !! k.
Proof.
  revert g. induction l as [|x l IH]; intros g; simpl.
  - reflexivity.
  - rewrite IH. destruct (decide (k ∈ l)) as [Hin|Hout].
    + rewrite !bool_decide_eq_true_2; [reflexivity|by right|done].
    + rewrite (bool_decide_eq_false_2 (k ∈ l)) by done.
      destruct (decide (k = x)) as [->|Hne].
      * rewrite bool_decide_eq_true_2 by left. apply lookup_insert_eq.
      * rewrite bool_decide_eq_false_2
          by (intros [?|?]%elem_of_cons; contradiction).
        apply lookup_insert_ne. congruence.
Qed.

(** The range-expansion loop binds every integer of the range to the
    entry, whatever was bound before, and nothing else. *)
Lemma fillByNumber_Some (start end_ : Z) (e : Entry) (st st' : state) :
  fillByNumber start end_ e st = Some st' →
  end_ ≠ maxInt ∧
  entries st' = entries st ∧ byKeyword st' = byKeyword st ∧
  byProtocolName st' = byProtocolName st ∧ loadOnce st' = loadOnce st ∧
  loadErr st' = loadErr st ∧
  (is_Some (byNumber st) → is_Some (byNumber st')) ∧
  ∀ k, mapGet (byNumber st') k =
       if (start <=? k) && (k <=? end_) then Some e
       else mapGet (byNumber st) k.
Proof.
  unfold fillByNumber. destruct (Z.eqb_spec end_ maxInt) as [|Hne];
    [discriminate|].
  destruct (byNumber st) as [g|] eqn:Hg.
  - rewrite (forEach_bindNumber _ _ _ _ Hg). intros [= <-].
    simpl. do 6 (split; [done|]). split; [eauto|].
    intros k. rewrite lookup_foldl_insert.
    destruct (Z.leb_spec start k), (Z.leb_spec k end_); simpl.
    + rewrite bool_decide_eq_true_2; [done|]. apply elem_of_seqZ. lia.
    + rewrite bool_decide_eq_false_2; [done|]. rewrite elem_of_seqZ. lia.
    + rewrite bool_decide_eq_false_2; [done|]. rewrite elem_of_seqZ. lia.
    + rewrite bool_decide_eq_false_2; [done|]. rewrite elem_of_seqZ. lia.
  - destruct (seqZ start (end_ - start + 1)) as [|x l] eqn:Hseq; simpl.
    + intros [= <-]. do 7 (split; [done|]).
      intros k. rewrite Hg. simpl.
      destruct (Z.leb_spec start k), (Z.leb_spec k end_); simpl; try done.
      assert (k ∈ seqZ start (end_ - start + 1)) as Hin
        by (apply elem_of_seqZ; lia).
      rewrite Hseq in Hin. by apply not_elem_of_nil in Hin.
    + rewrite (bindNumber_nil _ _ _ Hg). discriminate.
Qed.

Lemma fillByNumber_returns (start end_ : Z) (e : Entry) (st : state) :
  end_ < maxInt → is_Some (byNumber st) →
  is_Some (fillByNumber start end_ e st).
Proof.
  intros Hlt [g Hg]. unfold fillByNumber.
  destruct (Z.eqb_spec end_ maxInt); [lia|].
  rewrite (forEach_bindNumber _ _ _ _ Hg). eauto.
Qed.

Lemma bindKeyword_Some (k : string) (e : Entry) (st st' : state) :
  bindKeyword k e st = Some st' →
  entries st' = entries st ∧ byNumber st' = byNumber st ∧
  byProtocolName st' = byProtocolName st ∧ loadOnce st' = loadOnce st ∧
  loadErr st' = loadErr st ∧ is_Some (byKeyword st').
Proof.
  unfold bindKeyword, mapGet, mapSet.
  destruct (byKeyword st) as [g|] eqn:Hg; simpl; [|discriminate].
  destruct (g !! k); intros [= <-]; simpl; rewrite ?Hg; eauto 10.
Qed.

Lemma bindProtocolName_Some (p : string) (e : Entry) (st st' : state) :
  bindProtocolName p e st = Some st' →
  entries st' = entries st ∧ byNumber st' = byNumber st ∧
  byKeyword st' = byKeyword st ∧ loadOnce st' = loadOnce st ∧
  loadErr st' = loadErr st ∧ is_Some (byProtocolName st').
Proof.
  unfold bindProtocolName, mapGet, mapSet.
  destruct (byProtocolName st) as [g|] eqn:Hg; simpl; [|discriminate].
  destruct (g !! p); intros [= <-]; simpl; rewrite ?Hg; eauto 10.
Qed.

(** A row is either dropped, leaving every variable as it was, or it
    appends its entry and binds the whole of its range. *)
Lemma processRow_Some (row : list string) (st st' : state) :
  processRow row st = Some st' →
  (st' = st ∧
   (row = [] ∨ TrimSpace (col row 0) = EmptyString ∨
    ∃ err, parseDecimalField (TrimSpace (col row 0)) = inl err))
  ∨
  (∃ start end_,
     parseDecimalField (TrimSpace (col row 0)) = inr (start, end_) ∧
     end_ ≠ maxInt ∧
     entries st' = entries st ++ [entryOfRow row start end_] ∧
     loadOnce st' = loadOnce st ∧ loadErr st' = loadErr st ∧
     (made st → made st') ∧
     ∀ k, mapGet (byNumber st') k =
          if covers k (entryOfRow row start end_)
          then Some (entryOfRow row start end_)
          else mapGet (byNumber st) k).
Proof.
  unfold processRow. destruct row as [|f row]; [intros [= <-]; auto|].
  set (r := f :: row).
  case_bool_decide as Hid; [intros [= <-]; auto|].
  destruct (parseDecimalField _) as [err|[start end_]] eqn:Hp;
    [intros [= <-]; eauto 10|].
  fold (entryOfRow r start end_). set (e := entryOfRow r start end_).
  destruct (fillByNumber _ _ _ _) as [s1|] eqn:H1; simpl; [|discriminate].
  apply fillByNumber_Some in H1
    as (Hmax & He1 & Hk1 & Hp1 & Ho1 & Hr1 & Hm1 & Hn1).
  simpl in He1, Hk1, Hp1, Ho1, Hr1, Hm1, Hn1.
  intros Hrest. right. exists start, end_.
  split; [reflexivity|]. split; [exact Hmax|].
  assert (∃ s2, (if bool_decide (TrimSpace (col r 1) = EmptyString)
                 then Some s1 else bindKeyword (ToUpper (TrimSpace (col r 1))) e s1)
                = Some s2 ∧
                (if bool_decide (TrimSpace (col r 2) = EmptyString)
                 then Some s2
                 else bindProtocolName
                        (normalizeProtoName (TrimSpace (col r 2))) e s2)
                = Some st') as (s2 & H2 & H3).
  { destruct (if bool_decide (TrimSpace (col r 1) = EmptyString) then _ else _)
      as [s2|]; simpl in Hrest; [eauto|discriminate]. }
  clear Hrest.
  assert (entries s2 = entries s1 ∧ byNumber s2 = byNumber s1 ∧
          byProtocolName s2 = byProtocolName s1 ∧ loadOnce s2 = loadOnce s1 ∧
          loadErr s2 = loadErr s1 ∧
          (is_Some (byKeyword s1) → is_Some (byKeyword s2)))
    as (He2 & Hn2 & Hp2 & Ho2 & Hr2 & Hk2).
  { destruct (bool_decide (TrimSpace (col r 1) = EmptyString));
      [injection H2 as <-; done|].
    apply bindKeyword_Some in H2 as (? & ? & ? & ? & ? & ?). auto 10. }
  assert (entries st' = entries s2 ∧ byNumber st' = byNumber s2 ∧
          byKeyword st' = byKeyword s2 ∧ loadOnce st' = loadOnce s2 ∧
          loadErr st' = loadErr s2 ∧
          (is_Some (byProtocolName s2) → is_Some (byProtocolName st')))
    as (He3 & Hn3 & Hk3 & Ho3 & Hr3 & Hp3).
  { destruct (bool_decide (TrimSpace (col r 2) = EmptyString));
      [injection H3 as <-; done|].
    apply bindProtocolName_Some in H3 as (? & ? & ? & ? & ? & ?). auto 10. }
  subst e.
  split; [congruence|]. split; [congruence|]. split; [congruence|].
  split.
  - intros (Hmn & Hmk & Hmp). unfold made.
    rewrite Hn3, Hn2, Hk3. rewrite Hk1 in Hk2. rewrite Hp2, Hp1 in Hp3.
    auto.
  - intros k. rewrite Hn3, Hn2, Hn1. reflexivity.
Qed.

End Rows.

(** ** The whole parse *)

Section Parse.
Context `{GoLib}.

Lemma lastOwner_snoc (n : Z) (l : list Entry) (e : Entry) :
  lastOwner n (l ++ [e]) = if covers n e then Some e else lastOwner n l.
Proof.
  unfold lastOwner. rewrite filter_app, filter_cons, filter_nil.
  destruct (covers n e); simpl.
  - apply last_snoc.
  - by rewrite app_nil_r.
Qed.

Lemma lastOwner_Some (n : Z) (l : list Entry) (e : Entry) :
  lastOwner n l = Some e ↔
  ∃ l1 l2, l = l1 ++ e :: l2 ∧ covers n e = true ∧
           Forall (λ e', covers n e' = false) l2.
Proof.
  induction l as [|x l IH] using rev_ind.
  - split; [discriminate|]. intros (l1 & l2 & Hl & _).
    by destruct l1.
  - rewrite lastOwner_snoc. destruct (covers n x) eqn:Hx.
    + split.
      * intros [= ->]. exists l, []. auto.
      * intros (l1 & l2 & Hl & He & Hl2).
        destruct l2 as [|y l2 _] using rev_ind.
        -- apply app_inj_tail in Hl as [_ ->]. reflexivity.
        -- rewrite app_comm_cons, app_assoc in Hl.
           apply app_inj_tail in Hl as [_ ->].
           rewrite Forall_app, Forall_singleton in Hl2.
           destruct Hl2 as [_ Hy]. congruence.
    + rewrite IH. split.
      * intros (l1 & l2 & -> & He & Hl2). exists l1, (l2 ++ [x]).
        rewrite <- app_assoc. split; [done|]. split; [done|].
        rewrite Forall_app, Forall_singleton. done.
      * intros (l1 & l2 & Hl & He & Hl2).
        destruct l2 as [|y l2 _] using rev_ind.
        -- apply app_inj_tail in Hl as [_ ->]. congruence.
        -- rewrite app_comm_cons, app_assoc in Hl.
           apply app_inj_tail in Hl as [-> ->].
           rewrite Forall_app in Hl2. destruct Hl2 as [Hl2 _]. eauto.
Qed.

Lemma lastOwner_None (n : Z) (l : list Entry) :
  lastOwner n l = None ↔ Forall (λ e, covers n e = false) l.
Proof.
  induction l as [|x l IH] using rev_ind; [by split|].
  rewrite lastOwner_snoc, Forall_app, Forall_singleton.
  destruct (covers n x); [split; [done|intros [_ ?]; done]|].
  rewrite IH. tauto.
Qed.

Lemma lastOwner_covers (n : Z) (l : list Entry) (e : Entry) :
  e ∈ l → covers n e = true →
  ∃ e', lastOwner n l = Some e' ∧ covers n e' = true ∧ e' ∈ l.
Proof.
  intros Hin Hc. destruct (lastOwner n l) as [e'|] eqn:Hl.
  - exists e'. split; [done|].
    apply lastOwner_Some in Hl as (l1 & l2 & -> & ? & _).
    split; [done|]. apply elem_of_app. right. left.
  - apply lastOwner_None in Hl. rewrite Forall_forall in Hl.
    specialize (Hl e Hin). congruence.
Qed.

Lemma resetTables_made (st : state) : made (resetTables st).
Proof. unfold made. simpl. eauto. Qed.

Lemma resetTables_indexed (st : state) : indexed (resetTables st).
Proof. intros n. reflexivity. Qed.

Lemma processRow_made (row : list string) (st st' : state) :
  made st → processRow row st = Some st' → made st'.
Proof.
  intros Hm [[-> _]|(? & ? & _ & _ & _ & _ & _ & Hmade & _)]%processRow_Some;
    auto.
Qed.

Lemma processRow_indexed (row : list string) (st st' : state) :
  indexed st → processRow row st = Some st' → indexed st'.
Proof.
  intros Hi [[-> _]|(s & e & _ & _ & He & _ & _ & _ & Hn)]%processRow_Some;
    [done|].
  intros k. rewrite Hn, He, lastOwner_snoc, (Hi k). reflexivity.
Qed.

(** The three ways [loadFromReaderLocked] returns. *)
Lemma loadFromReaderLocked_Some (r : string) (st st' : state)
    (err : option error) :
  loadFromReaderLocked r st = Some (err, st') ↔
  (∃ c, ReadAll r = inl c ∧ err = Some (ErrRead c) ∧ st' = st) ∨
  (ReadAll r = inr [] ∧ err = Some ErrCsvEmpty ∧ st' = st) ∨
  (∃ header rows, ReadAll r = inr (header :: rows) ∧ err = None ∧
     forEach processRow rows (resetTables st) = Some st').
Proof.
  unfold loadFromReaderLocked.
  destruct (ReadAll r) as [c|[|header rows]]; simpl.
  - split; [intros [= <- <-]; eauto 10|].
    intros [(? & [= <-] & -> & ->)|[(? & _)|(? & ? & ? & _)]];
      done.
  - split; [intros [= <- <-]; eauto 10|].
    intros [(? & ? & _)|[(_ & -> & ->)|(? & ? & ? & _)]]; done.
  - rewrite drop_0.
    split.
    + destruct (forEach _ _ _) as [s|] eqn:Hrows; simpl; [|discriminate].
      intros [= <- <-]. right. right. eauto.
    + intros [(? & ? & _)|[(? & _)|(? & ? & [= <- <-] & -> & Hrows)]];
        try done.
      rewrite Hrows. reflexivity.
Qed.

Lemma rows_made (rows : list (list string)) (st st' : state) :
  made st → forEach processRow rows st = Some st' → made st'.
Proof.
  apply (forEach_inv processRow made).
  intros x s s' _. apply processRow_made.
Qed.

Lemma rows_indexed (rows : list (list string)) (st st' : state) :
  indexed st → forEach processRow rows st = Some st' → indexed st'.
Proof.
  apply (forEach_inv processRow indexed).
  intros x s s' _. apply processRow_indexed.
Qed.

Lemma rows_flags (rows : list (list string)) (st st' : state) :
  forEach processRow rows st = Some st' →
  loadOnce st' = loadOnce st ∧ loadErr st' = loadErr st.
Proof.
  apply (forEach_inv processRow
           (λ s, loadOnce s = loadOnce st ∧ loadErr s = loadErr st));
    [|done].
  intros x s s' _ [Ho Hr]
    [[-> _]|(? & ? & _ & _ & _ & Ho' & Hr' & _)]%processRow_Some;
    split; congruence.
Qed.

(** *** When a parse returns

    The only step that may fail to return is the range-expansion loop of a
    row whose range ends at the largest [int]. *)

Lemma bindKeyword_returns (k : string) (e : Entry) (st : state) :
  is_Some (byKeyword st) → is_Some (bindKeyword k e st).
Proof.
  intros [g Hg]. unfold bindKeyword, mapGet, mapSet. rewrite Hg. simpl.
  destruct (g !! k); eauto.
Qed.

Lemma bindProtocolName_returns (p : string) (e : Entry) (st : state) :
  is_Some (byProtocolName st) → is_Some (bindProtocolName p e st).
Proof.
  intros [g Hg]. unfold bindProtocolName, mapGet, mapSet. rewrite Hg. simpl.
  destruct (g !! p); eauto.
Qed.

Lemma processRow_returns (row : list string) (st : state) :
  made st →
  (∀ a b, parseDecimalField (TrimSpace (col row 0)) = inr (a, b) →
          b ≠ maxInt) →
  is_Some (processRow row st).
Proof.
  intros (Hn & Hk & Hp) Hmax. unfold processRow.
  destruct row as [|f row]; [eauto|]. set (r := f :: row) in *.
  case_bool_decide; [eauto|].
  destruct (parseDecimalField _) as [err|[a b]] eqn:Hparse; [eauto|].
  pose proof (Hmax a b eq_refl) as Hb.
  apply parseDecimalField_range in Hparse as (_ & _ & Hle).
  match goal with
  | |- context [fillByNumber a b ?e ?s] =>
      destruct (fillByNumber_returns a b e s) as [s1 H1];
      [lia|exact Hn|rewrite H1]
  end.
  apply fillByNumber_Some in H1 as (_ & _ & Hk1 & Hp1 & _).
  simpl in Hk1, Hp1. simpl.
  assert (∃ s2, (if bool_decide (TrimSpace (col r 1) = EmptyString)
                 then Some s1
                 else bindKeyword (ToUpper (TrimSpace (col r 1)))
                        {| DecimalStart := a; DecimalEnd := b;
                           Keyword := TrimSpace (col r 1);
                           Protocol := TrimSpace (col r 2);
                           IPv6ExtHdr := TrimSpace (col r 3);
                           Reference := TrimSpace (col r 4) |} s1) = Some s2 ∧
                is_Some (byProtocolName s2)) as (s2 & -> & Hp2).
  { destruct (bool_decide (TrimSpace (col r 1) = EmptyString)).
    - exists s1. split; [reflexivity|]. by rewrite Hp1.
    - destruct (bindKeyword_returns (ToUpper (TrimSpace (col r 1)))
                  {| DecimalStart := a; DecimalEnd := b;
                     Keyword := TrimSpace (col r 1);
                     Protocol := TrimSpace (col r 2);
                     IPv6ExtHdr := TrimSpace (col r 3);
                     Reference := TrimSpace (col r 4) |} s1) as [s2 H2];
        [by rewrite Hk1|].
      exists s2. split; [exact H2|].
      apply bindKeyword_Some in H2 as (_ & _ & Hp2 & _).
      by rewrite Hp2, Hp1. }
  simpl. case_bool_decide; [eauto|]. by apply bindProtocolName_returns.
Qed.

(** A row whose range ends at the largest [int] keeps the parse from
    returning. *)
Lemma processRow_maxInt (row : list string) (st : state) (a : Z) :
  row ≠ [] → TrimSpace (col row 0) ≠ EmptyString →
  parseDecimalField (TrimSpace (col row 0)) = inr (a, maxInt) →
  processRow row st = None.
Proof.
  intros Hrow Hid Hparse. unfold processRow.
  destruct row as [|f row]; [done|].
  rewrite bool_decide_eq_false_2 by exact Hid. rewrite Hparse.
  unfold fillByNumber. rewrite Z.eqb_refl. reflexivity.
Qed.

Lemma rows_return (rows : list (list string)) (st : state) :
  made st →
  (∀ row a b, row ∈ rows →
     parseDecimalField (TrimSpace (col row 0)) = inr (a, b) → b ≠ maxInt) →
  is_Some (forEach processRow rows st).
Proof.
  revert st. induction rows as [|row rows IH]; intros st Hm Hmax; simpl;
    [eauto|].
  destruct (processRow_returns row st Hm) as [s1 H1].
  { intros a b. apply Hmax. left. }
  rewrite H1. simpl. apply IH.
  - exact (processRow_made _ _ _ Hm H1).
  - intros r a b Hin. apply Hmax. by right.
Qed.

(** [loadFromReaderLocked] returns for every source none of whose data
    rows has a range that ends at the largest [int]. *)
Lemma loadFromReaderLocked_returns (r : string) (st : state) :
  (∀ records row a b,
     ReadAll r = inr records → row ∈ drop 1 records →
     parseDecimalField (TrimSpace (col row 0)) = inr (a, b) → b ≠ maxInt) →
  is_Some (loadFromReaderLocked r st).
Proof.
  intros Hmax. unfold loadFromReaderLocked.
  destruct (ReadAll r) as [c|records] eqn:Hr; [eauto|].
  case_bool_decide; [eauto|].
  destruct (rows_return (drop 1 records) (resetTables st)) as [s Hs].
  - apply resetTables_made.
  - intros row a b. by apply Hmax.
  - rewrite Hs. simpl. eauto.
Qed.

End Parse.

(** ** The exported functions *)

Section Api.
Context `{GoLib}.

Lemma loadFromReaderLocked_indexed (r : string) (st st' : state)
    (err : option error) :
  indexed st → loadFromReaderLocked r st = Some (err, st') → indexed st'.
Proof.
  intros Hi [(? & _ & _ & ->)|[(_ & _ & ->)|(? & rows & _ & _ & Hrows)]]
    %loadFromReaderLocked_Some; try done.
  exact (rows_indexed _ _ _ (resetTables_indexed st) Hrows).
Qed.

Lemma loadFromReaderLocked_flags (r : string) (st st' : state)
    (err : option error) :
  loadFromReaderLocked r st = Some (err, st') →
  loadOnce st' = loadOnce st ∧ loadErr st' = loadErr st.
Proof.
  intros [(? & _ & _ & ->)|[(_ & _ & ->)|(? & rows & _ & _ & Hrows)]]
    %loadFromReaderLocked_Some; try done.
  exact (rows_flags _ _ _ Hrows).
Qed.

Lemma LoadFromReader_indexed (r : string) (st st' : state)
    (err : option error) :
  indexed st → LoadFromReader r st = Some (err, st') → indexed st'.
Proof. intros Hi. apply loadFromReaderLocked_indexed. exact Hi. Qed.

Lemma LoadFromFile_indexed (path : string) (st st' : state)
    (err : option error) :
  indexed st → LoadFromFile path st = Some (err, st') → indexed st'.
Proof.
  intros Hi. unfold LoadFromFile. destruct (Open path) as [c|f].
  - intros [= _ <-]. exact Hi.
  - by apply LoadFromReader_indexed.
Qed.

(** What [ensureLoaded] leaves behind: the flag is set, the returned
    error is the cached one, and the tables are those of the state before
    or those of a parse of the embedded file. *)
Lemma ensureLoaded_Some (st st' : state) (err : option error) :
  ensureLoaded st = Some (err, st') →
  loadOnce st' = true ∧ err = loadErr st' ∧ (indexed st → indexed st').
Proof.
  unfold ensureLoaded. destruct (loadOnce st) eqn:Ho.
  { intros [= <- <-]. auto. }
  case_bool_decide.
  { simpl. intros [= <- <-]. auto. }
  unfold loadFromReader.
  destruct (loadFromReaderLocked embeddedCSV st) as [[e s]|] eqn:Hl;
    simpl; [|discriminate].
  intros [= <- <-]. simpl. do 2 (split; [done|]).
  intros Hi. exact (loadFromReaderLocked_indexed _ _ _ _ Hi Hl).
Qed.

Lemma ensureLoaded_done (st : state) :
  loadOnce st = true → ensureLoaded st = Some (loadErr st, st).
Proof. intros Ho. unfold ensureLoaded. rewrite Ho. reflexivity. Qed.

Lemma LookupByNumber_Some (n : Z) (st st' : state)
    (res : option Entry * bool) :
  LookupByNumber n st = Some (res, st') ↔
  ∃ err, ensureLoaded st = Some (err, st') ∧
         res = match err with
               | Some _ => (None, false)
               | None => readByNumber st' n
               end.
Proof.
  unfold LookupByNumber.
  destruct (ensureLoaded st) as [[err s]|]; simpl.
  - destruct err; (split; [intros [= <- <-]; eauto|]);
      intros (? & [= <- <-] & ->); reflexivity.
  - split; [discriminate|]. intros (? & ? & _). discriminate.
Qed.

Lemma LookupDecimal_Some (name : string) (st st' : state) (res : Z * bool) :
  LookupDecimal name st = Some (res, st') ↔
  ∃ err, ensureLoaded st = Some (err, st') ∧
         res = match err with
               | Some _ => (0, false)
               | None => readDecimal st' name
               end.
Proof.
  unfold LookupDecimal.
  destruct (ensureLoaded st) as [[err s]|]; simpl.
  - destruct err; (split; [intros [= <- <-]; eauto|]);
      intros (? & [= <- <-] & ->); reflexivity.
  - split; [discriminate|]. intros (? & ? & _). discriminate.
Qed.

Lemma LookupKeyword_state (n : Z) (st st' : state) (res : string * bool) :
  LookupKeyword n st = Some (res, st') →
  ∃ r, LookupByNumber n st = Some (r, st').
Proof.
  unfold LookupKeyword.
  destruct (LookupByNumber n st) as [[[[e|] [|]] s]|]; simpl;
    try discriminate; try case_bool_decide; intros [= _ <-]; eauto.
Qed.

Lemma LookupProtocolName_state (n : Z) (st st' : state)
    (res : string * bool) :
  LookupProtocolName n st = Some (res, st') →
  ∃ r, LookupByNumber n st = Some (r, st').
Proof.
  unfold LookupProtocolName.
  destruct (LookupByNumber n st) as [[[[e|] [|]] s]|]; simpl;
    try discriminate; try case_bool_decide; intros [= _ <-]; eauto.
Qed.

(** Once the done flag is set, every query returns. *)
Lemma queries_return_once_loaded (st : state) (n : Z) (name : string) :
  loadOnce st = true →
  is_Some (LookupByNumber n st) ∧ is_Some (LookupDecimal name st) ∧
  is_Some (LookupKeyword n st) ∧ is_Some (LookupProtocolName n st).
Proof.
  intros Ho. unfold LookupKeyword, LookupProtocolName, LookupByNumber,
    LookupDecimal. rewrite (ensureLoaded_done st Ho). simpl.
  destruct (loadErr st); simpl; [eauto|].
  repeat split; eauto;
    destruct (readByNumber st n) as [[e|] [|]]; simpl; eauto;
    case_bool_decide; eauto.
Qed.

(** In every state the package can reach, the by-number index answers
    with the last entry of the list that holds the number. *)
Lemma reachable_indexed (st : state) : reachable st → indexed st.
Proof.
  induction 1 as [|r st err st' _ IH Hc|p st err st' _ IH Hc
                  |n st res st' _ IH Hc|name st res st' _ IH Hc
                  |n st res st' _ IH Hc|n st res st' _ IH Hc].
  - intros n. reflexivity.
  - exact (LoadFromReader_indexed _ _ _ _ IH Hc).
  - exact (LoadFromFile_indexed _ _ _ _ IH Hc).
  - apply LookupByNumber_Some in Hc as (err & Hc & _).
    by apply ensureLoaded_Some in Hc as (_ & _ & Hi); apply Hi.
  - apply LookupDecimal_Some in Hc as (err & Hc & _).
    by apply ensureLoaded_Some in Hc as (_ & _ & Hi); apply Hi.
  - apply LookupKeyword_state in Hc as (r & Hc).
    apply LookupByNumber_Some in Hc as (err & Hc & _).
    by apply ensureLoaded_Some in Hc as (_ & _ & Hi); apply Hi.
  - apply LookupProtocolName_state in Hc as (r & Hc).
    apply LookupByNumber_Some in Hc as (err & Hc & _).
    by apply ensureLoaded_Some in Hc as (_ & _ & Hi); apply Hi.
Qed.

End Api.

(** ** The by-number index *)

Section ByNumber.
Context `{GoLib}.

(** C2, as amended: during a parse every integer of a row's inclusive
    range is bound to that row's entry whether or not it was bound
    before, so that after the parse an integer belongs to the last row,
    in file order, whose range holds it (the later of two overlapping
    rows owns the integers they share), and an integer that no row's
    range holds is not bound. *)
Theorem byNumber_last_row_wins (r : string) (st st' : state) (n : Z) :
  loadFromReaderLocked r st = Some (None, st') →
  mapGet (byNumber st') n = lastOwner n (entries st') ∧
  (∀ l1 e l2,
     entries st' = l1 ++ e :: l2 → covers n e = true →
     Forall (λ e', covers n e' = false) l2 →
     mapGet (byNumber st') n = Some e) ∧
  (Forall (λ e, covers n e = false) (entries st') →
   mapGet (byNumber st') n = None).
Proof.
  intros Hload.
  assert (Hi : indexed st').
  { apply loadFromReaderLocked_Some in Hload
      as [(? & _ & [=] & _)|[(_ & [=] & _)|(? & rows & _ & _ & Hrows)]].
    exact (rows_indexed _ _ _ (resetTables_indexed st) Hrows). }
  split; [apply Hi|]. split.
  - intros l1 e l2 Hl He Hl2. rewrite (Hi n).
    apply lastOwner_Some. eauto.
  - intros Hnone. rewrite (Hi n). by apply lastOwner_None.
Qed.

(** C5, as amended: in a state the package can reach, when a call of
    [LookupByNumber(n)] returns after an initialisation without error,
    then for every entry of the list whose range holds [n] the call
    reports found, and the entry it returns is the last entry of the
    list, in file order, whose range holds [n]: the given entry itself
    when no later entry's range holds [n]. *)
Theorem LookupByNumber_in_range (st st' : state) (n : Z)
    (p : option Entry) (ok : bool) (e : Entry) :
  reachable st →
  LookupByNumber n st = Some ((p, ok), st') →
  loadErr st' = None →
  e ∈ entries st' → covers n e = true →
  ok = true ∧
  (∃ e', p = Some e' ∧ lastOwner n (entries st') = Some e' ∧
         covers n e' = true ∧ e' ∈ entries st') ∧
  (∀ l1 l2, entries st' = l1 ++ e :: l2 →
            Forall (λ e', covers n e' = false) l2 → p = Some e).
Proof.
  intros Hreach Hcall Herr Hin Hcov.
  assert (Hi : indexed st').
  { apply reachable_indexed. by eapply reach_LookupByNumber. }
  apply LookupByNumber_Some in Hcall as (err & Hload & Hres).
  apply ensureLoaded_Some in Hload as (_ & -> & _). rewrite Herr in Hres.
  destruct (lastOwner_covers n _ e Hin Hcov) as (e' & Hlast & Hcov' & Hin').
  assert (Hget : mapGet (byNumber st') n = Some e') by (by rewrite (Hi n)).
  assert (Hp : (p, ok) = (Some e', true)).
  { rewrite Hres. unfold readByNumber. rewrite Hget.
    destruct (byNumber st'); [reflexivity|discriminate Hget]. }
  injection Hp as -> ->. split; [reflexivity|]. split; [eauto|].
  intros l1 l2 Hl Hl2. rewrite <- Hlast. apply lastOwner_Some. eauto.
Qed.

(** C9: given the answer [(p, ok)] of [LookupByNumber(n)],
    [LookupKeyword(n)] returns, and it reports not found exactly when
    there is no entry for [n] ([ok] is false or [p] is nil) or the
    entry's [Keyword] is empty; otherwise it returns that [Keyword].
    [LookupProtocolName(n)] does the same with [Protocol]. *)
Theorem LookupKeyword_LookupProtocolName_found (st st' : state) (n : Z)
    (p : option Entry) (ok : bool) :
  LookupByNumber n st = Some ((p, ok), st') →
  (∃ s found,
     LookupKeyword n st = Some ((s, found), st') ∧
     (found = false ↔
      ok = false ∨ p = None ∨ ∃ e, p = Some e ∧ Keyword e = EmptyString) ∧
     (found = false → s = EmptyString) ∧
     (found = true → ∃ e, p = Some e ∧ s = Keyword e)) ∧
  (∃ s found,
     LookupProtocolName n st = Some ((s, found), st') ∧
     (found = false ↔
      ok = false ∨ p = None ∨ ∃ e, p = Some e ∧ Protocol e = EmptyString) ∧
     (found = false → s = EmptyString) ∧
     (found = true → ∃ e, p = Some e ∧ s = Protocol e)).
Proof.
  intros Hcall. unfold LookupKeyword, LookupProtocolName. rewrite Hcall.
  simpl. destruct p as [e|], ok; simpl.
  - split; case_bool_decide as Hk.
    + exists EmptyString, false. repeat split; eauto; done.
    + exists (Keyword e), true. repeat split; eauto; try done.
      intros [?|[?|(e' & [= <-] & ?)]]; done.
    + exists EmptyString, false. repeat split; eauto; done.
    + exists (Protocol e), true. repeat split; eauto; try done.
      intros [?|[?|(e' & [= <-] & ?)]]; done.
  - split; exists EmptyString, false; repeat split; eauto; done.
  - split; exists EmptyString, false; repeat split; eauto; done.
  - split; exists EmptyString, false; repeat split; eauto; done.
Qed.

End ByNumber.

(** ** The entry list *)

Section Entries.
Context `{GoLib}.

Lemma refused_parse (field : string) :
  refused (TrimSpace field) → ∃ err, parseDecimalField field = inl err.
Proof.
  intros Hbad.
  destruct (parseDecimalField field) as [err|[a b]] eqn:Hp; [eauto|].
  exfalso. apply parseDecimalField_inr in Hp.
  destruct Hbad as [Hd|[[Hint Hrng]|(a' & b' & Hr & Hlt)]].
  - destruct Hp as [[(Hd' & _) _]|[(Hd' & _) _]]; congruence.
  - destruct Hp as [[Hi _]|[Hr _]]; [exact (Hint _ Hi)|exact (Hrng _ _ Hr)].
  - destruct Hr as (_ & p0 & p1 & Hs & Hc & Ha & Hb).
    destruct Hp as [[(_ & Hc' & _) _]|[(_ & q0 & q1 & Hs' & _ & Ha' & Hb') ?]];
      [congruence|].
    rewrite Hs in Hs'. injection Hs' as <- <-.
    rewrite Ha in Ha'. rewrite Hb in Hb'. injection Ha' as ->.
    injection Hb' as ->. lia.
Qed.

(** C8: after a parse that returns, every entry of the list has
    [DecimalStart <= DecimalEnd] and was built from a data row whose
    identifier parsed as an integer that is not negative or as a range;
    and a row whose identifier does not start with a decimal digit, is
    neither an integer nor a range, or is a range with end below start,
    is dropped: [processRow] hands back the state it was given, with no
    new entry and no new binding. *)
Theorem parse_keeps_numeric_rows (r : string)
    (records : list (list string)) (st st' : state) :
  ReadAll r = inr records →
  loadFromReaderLocked r st = Some (None, st') →
  (∀ e, e ∈ entries st' →
     DecimalStart e <= DecimalEnd e ∧
     ∃ row, row ∈ drop 1 records ∧
            e = entryOfRow row (DecimalStart e) (DecimalEnd e) ∧
            ((isIntegerId (identifier row) (DecimalStart e) ∧
              DecimalEnd e = DecimalStart e ∧ 0 <= DecimalStart e) ∨
             isRangeId (identifier row) (DecimalStart e) (DecimalEnd e))) ∧
  (∀ row s, refused (identifier row) → processRow row s = Some s).
Proof.
  intros Hread Hload. split.
  - apply loadFromReaderLocked_Some in Hload
      as [(? & _ & [=] & _)|[(_ & [=] & _)|(hd & rows & Hr & _ & Hrows)]].
    rewrite Hread in Hr. injection Hr as ->. simpl. rewrite drop_0.
    revert Hrows.
    apply (forEach_inv processRow
      (λ s, ∀ e, e ∈ entries s →
         DecimalStart e <= DecimalEnd e ∧
         ∃ row, row ∈ rows ∧
            e = entryOfRow row (DecimalStart e) (DecimalEnd e) ∧
            ((isIntegerId (identifier row) (DecimalStart e) ∧
              DecimalEnd e = DecimalStart e ∧ 0 <= DecimalStart e) ∨
             isRangeId (identifier row) (DecimalStart e) (DecimalEnd e)))).
    + intros row s s' Hrow Hs
        [[-> _]|(a & b & Hp & _ & He & _)]%processRow_Some; [exact Hs|].
      intros e. rewrite He, elem_of_app, list_elem_of_singleton.
      intros [Hold| ->]; [exact (Hs e Hold)|]. simpl.
      split; [apply (parseDecimalField_range _ _ _ Hp)|].
      exists row. split; [exact Hrow|]. split; [reflexivity|].
      apply parseDecimalField_inr in Hp as [[Hi ->]|[Hr _]]; [|by right].
      left. split; [exact Hi|]. split; [reflexivity|].
      destruct Hi as (Hd & _ & Ha). exact (Atoi_digit_nonneg _ _ Hd Ha).
    + intros e Hin. simpl in Hin. by apply not_elem_of_nil in Hin.
  - intros row s Hbad. apply refused_parse in Hbad as [err Hp].
    unfold processRow. destruct row; [reflexivity|].
    case_bool_decide; [reflexivity|]. by rewrite Hp.
Qed.

End Entries.

(** ** Names *)

Section Names.
Context `{GoLib}.

(** C6: once initialisation has returned without error,
    [LookupDecimal(name)] returns, and its answer is decided in this
    order: a trimmed name that is empty is not found; otherwise a hit of
    the upper-cased name in the by-keyword index gives that entry's
    [DecimalStart], whatever the by-long-name index holds; only when the
    by-keyword index misses does a hit of the normalised name in the
    by-long-name index give that entry's [DecimalStart]; when both miss
    the name is not found. *)
Theorem LookupDecimal_keyword_first (st st1 : state) (name : string) :
  ensureLoaded st = Some (None, st1) →
  ∃ res,
    LookupDecimal name st = Some (res, st1) ∧
    (TrimSpace name = EmptyString → res = (0, false)) ∧
    (TrimSpace name ≠ EmptyString →
     (∀ e, mapGet (byKeyword st1) (ToUpper (TrimSpace name)) = Some e →
           res = (DecimalStart e, true)) ∧
     (mapGet (byKeyword st1) (ToUpper (TrimSpace name)) = None →
      (∀ e, mapGet (byProtocolName st1)
              (normalizeProtoName (TrimSpace name)) = Some e →
            res = (DecimalStart e, true)) ∧
      (mapGet (byProtocolName st1)
         (normalizeProtoName (TrimSpace name)) = None →
       res = (0, false)))).
Proof.
  intros Hload. exists (readDecimal st1 name).
  split; [apply LookupDecimal_Some; eauto|].
  unfold readDecimal.
  destruct (bool_decide (byKeyword st1 = None) &&
            bool_decide (byProtocolName st1 = None)) eqn:Hnil.
  - apply andb_prop in Hnil as [Hk Hp].
    apply bool_decide_eq_true_1 in Hk, Hp. rewrite Hk, Hp. simpl.
    split; [done|]. intros _. split; [discriminate|]. intros _.
    split; [discriminate|done].
  - clear Hnil. case_bool_decide as Hname.
    + split; [done|]. intros Hne. by destruct Hne.
    + split; [intros Hz; by destruct Hname|]. intros _.
      destruct (mapGet (byKeyword st1) _) as [e|].
      * split; [by intros ? [= <-]|discriminate].
      * split; [discriminate|]. intros _.
        destruct (mapGet (byProtocolName st1) _) as [e|].
        -- split; [by intros ? [= <-]|discriminate].
        -- split; [discriminate|done].
Qed.

End Names.

(** ** Failing loads *)

Section Failures.
Context `{GoLib}.

(** C4, as amended: [loadFromReaderLocked] returns an error exactly when
    the tabular read fails or yields no record at all (as for an empty
    source), and then leaves the state as it was; a source that yields
    the header row alone is not a failure: the call returns nil and
    leaves an empty entry list and three empty maps. *)
Theorem loadFromReaderLocked_error (r : string) (st : state) :
  (∀ err st',
     loadFromReaderLocked r st = Some (Some err, st') ↔
     st' = st ∧ ((∃ c, ReadAll r = inl c ∧ err = ErrRead c) ∨
                 (ReadAll r = inr [] ∧ err = ErrCsvEmpty))) ∧
  (∀ header,
     ReadAll r = inr [header] →
     loadFromReaderLocked r st = Some (None, resetTables st)).
Proof.
  split.
  - intros err st'. rewrite loadFromReaderLocked_Some. split.
    + intros [(c & Hr & [= ->] & ->)|[(Hr & [= ->] & ->)|(? & ? & _ & [=] & _)]];
        eauto 10.
    + intros [-> [(c & Hr & ->)|[Hr ->]]]; eauto 10.
  - intros header Hr. apply loadFromReaderLocked_Some. right. right.
    exists header, []. auto.
Qed.

(** C3, as amended: when the source of an override cannot be read or
    yields no record, [LoadFromReader] returns an error, the entry list
    and the three maps stay exactly as they were before the call, so
    that the tables read as before, and no error is cached in
    [loadErr]. *)
Theorem LoadFromReader_failure_keeps_tables (r : string) (st : state) :
  (∃ c, ReadAll r = inl c) ∨ ReadAll r = inr [] →
  ∃ err st',
    LoadFromReader r st = Some (Some err, st') ∧
    entries st' = entries st ∧ byNumber st' = byNumber st ∧
    byKeyword st' = byKeyword st ∧
    byProtocolName st' = byProtocolName st ∧ loadErr st' = None ∧
    (∀ n, readByNumber st' n = readByNumber st n) ∧
    (∀ name, readDecimal st' name = readDecimal st name).
Proof.
  intros Hfail. unfold LoadFromReader.
  set (st0 := setLoadErr None (setLoadOnce false st)).
  assert (∃ err, loadFromReaderLocked r st0 = Some (Some err, st0))
    as [err Herr].
  { destruct Hfail as [[c Hr]|Hr].
    - exists (ErrRead c). apply loadFromReaderLocked_Some. eauto 10.
    - exists ErrCsvEmpty. apply loadFromReaderLocked_Some. eauto 10. }
  exists err, st0. split; [exact Herr|]. repeat split.
Qed.

(** Every call of [LoadFromReader] that returns leaves the done flag of
    [loadOnce] cleared, whether it returns an error or not. *)
Lemma LoadFromReader_clears_once (r : string) (st st' : state)
    (err : option error) :
  LoadFromReader r st = Some (err, st') → loadOnce st' = false.
Proof.
  unfold LoadFromReader. intros [Ho _]%loadFromReaderLocked_flags.
  exact Ho.
Qed.

(** So the first query after an override parses the embedded file
    again, over whatever the override loaded. *)
Lemma ensureLoaded_after_LoadFromReader (r : string) (st st' : state)
    (err : option error) :
  LoadFromReader r st = Some (err, st') →
  embeddedCSV ≠ EmptyString →
  ensureLoaded st' =
  '(err', s) ← loadFromReaderLocked embeddedCSV st';
  Some (err', setLoadOnce true (setLoadErr err' s)).
Proof.
  intros Ho%LoadFromReader_clears_once Hemb.
  unfold ensureLoaded, loadFromReader. rewrite Ho.
  rewrite bool_decide_eq_false_2 by (by destruct embeddedCSV).
  by destruct (loadFromReaderLocked embeddedCSV st') as [[e s]|].
Qed.

End Failures.

(** ** The strings functions on ASCII input *)

Section AsciiStrings.
Import AsciiLib.

Lemma trimLeft_allSpace (s : string) :
  allSpace s = true → trimLeft s = EmptyString.
Proof.
  induction s as [|c r IH]; simpl; [reflexivity|].
  intros [Hc Hr]%andb_prop. rewrite Hc. exact (IH Hr).
Qed.

(** A string of spaces is trimmed to nothing. *)
Lemma trimSpace_allSpace (s : string) :
  allSpace s = true → trimSpace s = EmptyString.
Proof. intros Hs. unfold trimSpace. by rewrite (trimLeft_allSpace s Hs). Qed.

Lemma trimLeft_head (s : string) :
  match trimLeft s with
  | EmptyString => True
  | String c _ => isSpace c = false
  end.
Proof.
  induction s as [|c r IH]; simpl; [exact I|].
  destruct (isSpace c) eqn:Hc; [exact IH|exact Hc].
Qed.

Lemma trimRight_head (c : ascii) (r : string) :
  isSpace c = false → ∃ r', trimRight (String c r) = String c r'.
Proof.
  intros Hc. simpl. destruct (trimRight r); rewrite ?Hc; eauto.
Qed.

Lemma trimRight_idem (s : string) : trimRight (trimRight s) = trimRight s.
Proof.
  induction s as [|c r IH]; simpl; [reflexivity|].
  destruct (trimRight r) as [|d r'] eqn:Hr.
  - destruct (isSpace c) eqn:Hc; simpl; [reflexivity|]. by rewrite Hc.
  - simpl. simpl in IH. rewrite IH. reflexivity.
Qed.

Lemma trimSpace_idem (s : string) : trimSpace (trimSpace s) = trimSpace s.
Proof.
  unfold trimSpace. pose proof (trimLeft_head s) as Hh.
  destruct (trimLeft s) as [|c r]; [reflexivity|].
  destruct (trimRight_head c r Hh) as [r' Hr']. rewrite Hr'.
  simpl trimLeft. rewrite Hh. rewrite <- Hr'. apply trimRight_idem.
Qed.

Lemma lowerByte_upperByte (c : ascii) :
  lowerByte (upperByte c) = lowerByte c.
Proof. destruct c as [[] [] [] [] [] [] [] []]; reflexivity. Qed.

Lemma toLower_toUpper (s : string) : toLower (toUpper s) = toLower s.
Proof.
  induction s as [|c r IH]; simpl; [reflexivity|].
  unfold toLower, toUpper in *. simpl. by rewrite lowerByte_upperByte, IH.
Qed.

Lemma toUpper_empty (s : string) :
  toUpper s = EmptyString ↔ s = EmptyString.
Proof. destruct s; split; done. Qed.

End AsciiStrings.

(** ** Spellings of a name *)

Section AsciiSpelling.
Import AsciiLib.

Lemma upperByte_flipCase (c : ascii) : upperByte (flipCase c) = upperByte c.
Proof. destruct c as [[] [] [] [] [] [] [] []]; reflexivity. Qed.

Lemma isSpace_upperByte (c : ascii) : isSpace (upperByte c) = isSpace c.
Proof. destruct c as [[] [] [] [] [] [] [] []]; reflexivity. Qed.

Lemma isSpace_lowerByte (c : ascii) : isSpace (lowerByte c) = isSpace c.
Proof. destruct c as [[] [] [] [] [] [] [] []]; reflexivity. Qed.

Lemma isASCIIByte_upperByte (c : ascii) :
  isASCIIByte (upperByte c) = isASCIIByte c.
Proof. destruct c as [[] [] [] [] [] [] [] []]; reflexivity. Qed.

Lemma isASCIIByte_lowerByte (c : ascii) :
  isASCIIByte (lowerByte c) = isASCIIByte c.
Proof. destruct c as [[] [] [] [] [] [] [] []]; reflexivity. Qed.

Lemma mapBytes_append (f : ascii → ascii) (a b : string) :
  mapBytes f (a +:+ b) = mapBytes f a +:+ mapBytes f b.
Proof.
  induction a as [|c a IH]; [reflexivity|].
  change (String (f c) (mapBytes f (a +:+ b))
          = String (f c) (mapBytes f a +:+ mapBytes f b)).
  by rewrite IH.
Qed.

Lemma mapBytes_trimLeft (f : ascii → ascii) (s : string) :
  (∀ c, isSpace (f c) = isSpace c) →
  mapBytes f (trimLeft s) = trimLeft (mapBytes f s).
Proof.
  intros Hf. induction s as [|c r IH]; simpl; [reflexivity|].
  rewrite Hf. by destruct (isSpace c).
Qed.

Lemma mapBytes_trimRight (f : ascii → ascii) (s : string) :
  (∀ c, isSpace (f c) = isSpace c) →
  mapBytes f (trimRight s) = trimRight (mapBytes f s).
Proof.
  intros Hf. induction s as [|c r IH]; simpl; [reflexivity|].
  rewrite <- IH, Hf. destruct (trimRight r); simpl; [|reflexivity].
  by destruct (isSpace c).
Qed.

Lemma mapBytes_trimSpace (f : ascii → ascii) (s : string) :
  (∀ c, isSpace (f c) = isSpace c) →
  mapBytes f (trimSpace s) = trimSpace (mapBytes f s).
Proof.
  intros Hf. unfold trimSpace.
  by rewrite mapBytes_trimRight, mapBytes_trimLeft.
Qed.

Lemma trimRight_after (w : ascii) (t : string) :
  isSpace w = true → trimRight (t +:+ String w EmptyString) = trimRight t.
Proof.
  intros Hw. induction t as [|c t IH]; [simpl; by rewrite Hw|].
  change (trimRight (String c (t +:+ String w EmptyString))
          = trimRight (String c t)).
  simpl. by rewrite IH.
Qed.

Lemma trimLeft_append (s x : string) :
  trimLeft (s +:+ x) = if allSpace s then trimLeft x else trimLeft s +:+ x.
Proof.
  induction s as [|c s IH]; [reflexivity|].
  change (trimLeft (String c (s +:+ x))
          = if allSpace (String c s) then trimLeft x
            else trimLeft (String c s) +:+ x).
  simpl. destruct (isSpace c); [exact IH|reflexivity].
Qed.

Lemma trimSpace_after (w : ascii) (s : string) :
  isSpace w = true → trimSpace (s +:+ String w EmptyString) = trimSpace s.
Proof.
  intros Hw. unfold trimSpace. rewrite trimLeft_append.
  destruct (allSpace s) eqn:Hs.
  - rewrite (trimLeft_allSpace s Hs). simpl. by rewrite Hw.
  - by apply trimRight_after.
Qed.

(** Spellings that differ in case and in the spaces around the name have
    the same key in the by-keyword index. *)
Lemma spelling_upper (s t : string) :
  spelling s t → toUpper (trimSpace s) = toUpper (trimSpace t).
Proof.
  induction 1 as [s|s t _ IH|s t u _ IH1 _ IH2|a c b|w s Hw|w s Hw].
  - reflexivity.
  - by symmetry.
  - by rewrite IH1.
  - unfold toUpper.
    rewrite !(mapBytes_trimSpace upperByte) by apply isSpace_upperByte.
    rewrite !mapBytes_append. simpl. by rewrite upperByte_flipCase.
  - unfold trimSpace. simpl. by rewrite Hw.
  - by rewrite (trimSpace_after w s Hw).
Qed.

Lemma fieldsFrom_space (cur : list ascii) (w : ascii) (s : string) :
  isSpace w = true →
  fieldsFrom cur (String w s) = fieldsFrom cur EmptyString ++ fieldsFrom [] s.
Proof. intros Hw. simpl. rewrite Hw. by destruct cur. Qed.

(** [strings.Fields] cuts at a space. *)
Lemma fieldsFrom_split (cur : list ascii) (a : string) (w : ascii)
    (b : string) :
  isSpace w = true →
  fieldsFrom cur (a +:+ String w b) = fieldsFrom cur a ++ fieldsFrom [] b.
Proof.
  intros Hw. revert cur. induction a as [|c a IH]; intros cur.
  - by apply fieldsFrom_space.
  - change (fieldsFrom cur (String c (a +:+ String w b))
            = fieldsFrom cur (String c a) ++ fieldsFrom [] b).
    simpl. destruct (isSpace c); [|apply IH].
    rewrite IH. by destruct cur.
Qed.

Lemma fields_trimLeft (s : string) : fields (trimLeft s) = fields s.
Proof.
  unfold fields. induction s as [|c r IH]; simpl; [reflexivity|].
  destruct (isSpace c) eqn:Hc; [exact IH|]. simpl. by rewrite Hc.
Qed.

Lemma fieldsFrom_trimRight (cur : list ascii) (s : string) :
  fieldsFrom cur (trimRight s) = fieldsFrom cur s.
Proof.
  revert cur. induction s as [|c r IH]; intros cur; [reflexivity|].
  simpl. destruct (trimRight r) as [|d r'] eqn:Hr.
  - destruct (isSpace c) eqn:Hc.
    + rewrite <- (IH []). by destruct cur.
    + simpl. rewrite Hc. rewrite <- (IH (c :: cur)). reflexivity.
  - change (fieldsFrom cur (String c (String d r'))
            = if isSpace c
              then match cur with
                   | [] => fieldsFrom [] r
                   | _ :: _ =>
                       string_of_list_ascii (rev cur) :: fieldsFrom [] r
                   end
              else fieldsFrom (c :: cur) r).
    rewrite <- (IH []), <- (IH (c :: cur)). reflexivity.
Qed.

Lemma fields_trimSpace (s : string) : fields (trimSpace s) = fields s.
Proof.
  unfold trimSpace, fields. rewrite fieldsFrom_trimRight.
  apply fields_trimLeft.
Qed.

Lemma fields_lower_trim (s : string) :
  fields (toLower (trimSpace s)) = fields (toLower s).
Proof.
  unfold toLower.
  rewrite (mapBytes_trimSpace lowerByte) by apply isSpace_lowerByte.
  apply fields_trimSpace.
Qed.

(** Spellings that differ in case and in runs of spaces have the same
    fields once in lower case. *)
Lemma respelling_fields (s t : string) :
  respelling s t → fields (toLower s) = fields (toLower t).
Proof.
  induction 1 as [s t Hst|s t _ IH|s t u _ IH1 _ IH2|a w w' b Hw Hw'
                  |a w w' b Hw Hw'].
  - rewrite <- (fields_lower_trim s), <- (fields_lower_trim t).
    rewrite <- (toLower_toUpper (trimSpace s)).
    rewrite <- (toLower_toUpper (trimSpace t)).
    by rewrite (spelling_upper s t Hst).
  - by symmetry.
  - by rewrite IH1.
  - unfold toLower, fields. rewrite !mapBytes_append. simpl.
    rewrite !fieldsFrom_split by (by rewrite isSpace_lowerByte).
    reflexivity.
  - unfold toLower, fields. rewrite !mapBytes_append. simpl mapBytes.
    rewrite !fieldsFrom_split by (by rewrite isSpace_lowerByte).
    rewrite (fieldsFrom_space [] (lowerByte w'))
      by (by rewrite isSpace_lowerByte).
    reflexivity.
Qed.

Lemma fieldsFrom_nonempty (cur : list ascii) (s : string) :
  cur ≠ [] → fieldsFrom cur s ≠ [].
Proof.
  revert cur. induction s as [|c r IH]; intros cur Hcur; simpl.
  - by destruct cur.
  - destruct (isSpace c); [by destruct cur|]. by apply IH.
Qed.

(** A name trims to nothing exactly when it has no field. *)
Lemma trimSpace_empty_fields (s : string) :
  trimSpace s = EmptyString ↔ fields (toLower s) = [].
Proof.
  rewrite <- (fields_lower_trim s). split; [by intros ->|].
  unfold trimSpace. pose proof (trimLeft_head s) as Hh.
  destruct (trimLeft s) as [|c r]; [reflexivity|].
  destruct (trimRight_head c r Hh) as [r' ->].
  change (toLower (String c r')) with (String (lowerByte c) (toLower r')).
  unfold fields. simpl. rewrite isSpace_lowerByte, Hh. intros Hnil.
  by apply fieldsFrom_nonempty in Hnil.
Qed.

Lemma isASCII_trimLeft (s : string) :
  isASCII s = true → isASCII (trimLeft s) = true.
Proof.
  induction s as [|c r IH]; simpl; [done|]. intros Hs.
  destruct (isSpace c); [|exact Hs].
  apply andb_prop in Hs as [_ Hr]. by apply IH.
Qed.

Lemma isASCII_trimRight (s : string) :
  isASCII s = true → isASCII (trimRight s) = true.
Proof.
  induction s as [|c r IH]; simpl; [done|].
  intros [Hc Hr]%andb_prop. specialize (IH Hr).
  destruct (trimRight r); simpl in *.
  - destruct (isSpace c); simpl; [done|]. by rewrite Hc.
  - by rewrite Hc, IH.
Qed.

Lemma isASCII_trimSpace (s : string) :
  isASCII s = true → isASCII (trimSpace s) = true.
Proof. intros Hs. by apply isASCII_trimRight, isASCII_trimLeft. Qed.

Lemma isASCII_toLower (s : string) : isASCII (toLower s) = isASCII s.
Proof.
  induction s as [|c r IH]; [reflexivity|].
  change (isASCIIByte (lowerByte c) && isASCII (toLower r)
          = isASCIIByte c && isASCII r).
  by rewrite isASCIIByte_lowerByte, IH.
Qed.

Lemma allSpace_isASCII (s : string) : allSpace s = true → isASCII s = true.
Proof.
  induction s as [|c r IH]; simpl; [done|].
  intros [Hc Hr]%andb_prop. rewrite (IH Hr), andb_true_r.
  unfold isSpace, isASCIIByte in *.
  destruct (Z.leb_spec 9 (byteOf c)), (Z.leb_spec (byteOf c) 13),
    (Z.eqb_spec (byteOf c) 32), (Z.ltb_spec (byteOf c) 128);
    simpl in Hc; try done; lia.
Qed.

(** The byte-wise package is faithful to itself. *)
Lemma asciiGo_faithful (embedded : string)
    (files : list (string * string)) :
  asciiFaithful (L := asciiGo embedded files).
Proof. intros s _. repeat split; reflexivity. Qed.

End AsciiSpelling.

(** ** Names in every spelling *)

Section Spellings.
Import AsciiLib.
Context `{GoLib}.

(** Two names with the same keys read the tables alike. *)
Lemma readDecimal_same_keys (st : state) (s1 s2 : string) :
  (TrimSpace s1 = EmptyString ↔ TrimSpace s2 = EmptyString) →
  ToUpper (TrimSpace s1) = ToUpper (TrimSpace s2) →
  normalizeProtoName (TrimSpace s1) = normalizeProtoName (TrimSpace s2) →
  readDecimal st s1 = readDecimal st s2.
Proof.
  intros Hz Hk Hn. unfold readDecimal. rewrite Hk, Hn.
  destruct (_ && _); [reflexivity|].
  destruct (decide (TrimSpace s1 = EmptyString)) as [H1|H1].
  - rewrite !bool_decide_eq_true_2; tauto.
  - rewrite !bool_decide_eq_false_2; tauto.
Qed.

(** Two names that miss the by-keyword index and have the same normalised
    form read the tables alike. *)
Lemma readDecimal_same_long (st : state) (s1 s2 : string) :
  (TrimSpace s1 = EmptyString ↔ TrimSpace s2 = EmptyString) →
  mapGet (byKeyword st) (ToUpper (TrimSpace s1)) = None →
  mapGet (byKeyword st) (ToUpper (TrimSpace s2)) = None →
  normalizeProtoName (TrimSpace s1) = normalizeProtoName (TrimSpace s2) →
  readDecimal st s1 = readDecimal st s2.
Proof.
  intros Hz Hk1 Hk2 Hn. unfold readDecimal. rewrite Hk1, Hk2, Hn.
  destruct (_ && _); [reflexivity|].
  destruct (decide (TrimSpace s1 = EmptyString)) as [H1|H1].
  - rewrite !bool_decide_eq_true_2; tauto.
  - rewrite !bool_decide_eq_false_2; tauto.
Qed.

Lemma LookupDecimal_read (st : state) (s1 s2 : string) :
  (∀ err st1, ensureLoaded st = Some (err, st1) →
              readDecimal st1 s1 = readDecimal st1 s2) →
  LookupDecimal s1 st = LookupDecimal s2 st.
Proof.
  intros Hread. unfold LookupDecimal.
  destruct (ensureLoaded st) as [[[e|] st1]|] eqn:Hl; simpl; try reflexivity.
  by rewrite (Hread None st1).
Qed.

(** The normal form of an ASCII name, computed by the byte-wise
    functions. *)
Lemma faithful_normalize (s : string) :
  asciiFaithful → isASCII s = true →
  normalizeProtoName s = Join (fields (toLower (trimSpace s))) " ".
Proof.
  intros Hf Hs. pose proof (isASCII_trimSpace s Hs) as Ht.
  destruct (Hf s Hs) as (Htrim & _).
  destruct (Hf (trimSpace s) Ht) as (_ & _ & Hlow & _).
  assert (Hl : isASCII (toLower (trimSpace s)) = true)
    by (by rewrite isASCII_toLower).
  destruct (Hf _ Hl) as (_ & _ & _ & Hfields).
  unfold normalizeProtoName. by rewrite Htrim, Hlow, Hfields.
Qed.

(** The keys of an ASCII name, computed by the byte-wise functions. *)
Lemma faithful_keys (s : string) :
  asciiFaithful → isASCII s = true →
  TrimSpace s = trimSpace s ∧
  ToUpper (TrimSpace s) = toUpper (trimSpace s) ∧
  normalizeProtoName (TrimSpace s)
  = Join (fields (toLower (trimSpace s))) " ".
Proof.
  intros Hf Hs. pose proof (isASCII_trimSpace s Hs) as Ht.
  destruct (Hf s Hs) as (Htrim & _).
  destruct (Hf (trimSpace s) Ht) as (Htrim' & Hup & Hlow & _).
  assert (Hl : isASCII (toLower (trimSpace s)) = true)
    by (by rewrite isASCII_toLower).
  destruct (Hf _ Hl) as (_ & _ & _ & Hfields).
  split; [exact Htrim|]. split; [by rewrite Htrim, Hup|].
  unfold normalizeProtoName.
  by rewrite Htrim, Htrim', trimSpace_idem, Hlow, Hfields.
Qed.

(** A name of spaces trims to nothing. *)
Lemma faithful_blank (name : string) :
  asciiFaithful → allSpace name = true → TrimSpace name = EmptyString.
Proof.
  intros Hf Hb. destruct (Hf name (allSpace_isASCII _ Hb)) as (-> & _).
  by apply trimSpace_allSpace.
Qed.

(** C7, as amended: [LookupDecimal] reads a name only through three
    keys: whether the trimmed name is empty, the trimmed name in upper
    case, and the normal form of the trimmed name.  So it gives the same
    answer for two names with the same three keys, and for two names that
    agree on the first and the last when neither upper-cased trimmed name
    is a key of the by-keyword index.  With a package [strings] that works
    byte by byte on ASCII strings, as Go's does, it follows that
    [LookupDecimal] gives the same answer for any two ASCII names that
    differ only in the case of letters and in white space around the name,
    as ["tcp"], ["TCP"] and [" Tcp "] do; and that for any two ASCII names
    that differ, besides, in their runs of white space (which byte of
    white space, and how many), as ["transMission   control"] and
    ["Transmission Control"] do, it gives the same answer provided that
    neither name, trimmed and upper-cased, is a key of the by-keyword
    index. *)
Theorem LookupDecimal_case_and_space (st : state) :
  (∀ s1 s2,
     (TrimSpace s1 = EmptyString ↔ TrimSpace s2 = EmptyString) →
     ToUpper (TrimSpace s1) = ToUpper (TrimSpace s2) →
     normalizeProtoName (TrimSpace s1) = normalizeProtoName (TrimSpace s2) →
     LookupDecimal s1 st = LookupDecimal s2 st) ∧
  (∀ s1 s2 err st1,
     (TrimSpace s1 = EmptyString ↔ TrimSpace s2 = EmptyString) →
     normalizeProtoName (TrimSpace s1) = normalizeProtoName (TrimSpace s2) →
     ensureLoaded st = Some (err, st1) →
     mapGet (byKeyword st1) (ToUpper (TrimSpace s1)) = None →
     mapGet (byKeyword st1) (ToUpper (TrimSpace s2)) = None →
     LookupDecimal s1 st = LookupDecimal s2 st) ∧
  (asciiFaithful →
   (∀ s1 s2,
      isASCII s1 = true → isASCII s2 = true → spelling s1 s2 →
      LookupDecimal s1 st = LookupDecimal s2 st) ∧
   (∀ s1 s2 err st1,
      isASCII s1 = true → isASCII s2 = true → respelling s1 s2 →
      ensureLoaded st = Some (err, st1) →
      mapGet (byKeyword st1) (ToUpper (TrimSpace s1)) = None →
      mapGet (byKeyword st1) (ToUpper (TrimSpace s2)) = None →
      LookupDecimal s1 st = LookupDecimal s2 st) ∧
   LookupDecimal "tcp" st = LookupDecimal "TCP" st ∧
   LookupDecimal "TCP" st = LookupDecimal " Tcp " st ∧
   (∀ err st1,
      ensureLoaded st = Some (err, st1) →
      mapGet (byKeyword st1) "TRANSMISSION   CONTROL" = None →
      mapGet (byKeyword st1) "TRANSMISSION CONTROL" = None →
      LookupDecimal "transMission   control" st
      = LookupDecimal "Transmission Control" st)).
Proof.
  assert (Hkeys : ∀ s1 s2,
     (TrimSpace s1 = EmptyString ↔ TrimSpace s2 = EmptyString) →
     ToUpper (TrimSpace s1) = ToUpper (TrimSpace s2) →
     normalizeProtoName (TrimSpace s1) = normalizeProtoName (TrimSpace s2) →
     LookupDecimal s1 st = LookupDecimal s2 st).
  { intros s1 s2 Hz Hk Hn. apply LookupDecimal_read. intros _ st1 _.
    by apply readDecimal_same_keys. }
  assert (Hmiss : ∀ s1 s2 err st1,
     (TrimSpace s1 = EmptyString ↔ TrimSpace s2 = EmptyString) →
     normalizeProtoName (TrimSpace s1) = normalizeProtoName (TrimSpace s2) →
     ensureLoaded st = Some (err, st1) →
     mapGet (byKeyword st1) (ToUpper (TrimSpace s1)) = None →
     mapGet (byKeyword st1) (ToUpper (TrimSpace s2)) = None →
     LookupDecimal s1 st = LookupDecimal s2 st).
  { intros s1 s2 err st1 Hz Hn Hload Hm1 Hm2. apply LookupDecimal_read.
    intros err' st1' Hload'. rewrite Hload in Hload'.
    injection Hload' as _ <-. by apply readDecimal_same_long. }
  split; [exact Hkeys|]. split; [exact Hmiss|]. intros Hf.
  assert (Hsame : ∀ s1 s2,
     isASCII s1 = true → isASCII s2 = true →
     toUpper (trimSpace s1) = toUpper (trimSpace s2) →
     LookupDecimal s1 st = LookupDecimal s2 st).
  { intros s1 s2 H1 H2 Hup.
    destruct (faithful_keys s1 Hf H1) as (Ht1 & Hk1 & Hn1).
    destruct (faithful_keys s2 Hf H2) as (Ht2 & Hk2 & Hn2).
    apply Hkeys.
    - rewrite Ht1, Ht2.
      rewrite <- (toUpper_empty (trimSpace s1)),
        <- (toUpper_empty (trimSpace s2)). by rewrite Hup.
    - by rewrite Hk1, Hk2.
    - rewrite Hn1, Hn2.
      by rewrite <- (toLower_toUpper (trimSpace s1)), Hup, toLower_toUpper. }
  assert (Hlong : ∀ s1 s2 err st1,
     isASCII s1 = true → isASCII s2 = true →
     fields (toLower s1) = fields (toLower s2) →
     ensureLoaded st = Some (err, st1) →
     mapGet (byKeyword st1) (ToUpper (TrimSpace s1)) = None →
     mapGet (byKeyword st1) (ToUpper (TrimSpace s2)) = None →
     LookupDecimal s1 st = LookupDecimal s2 st).
  { intros s1 s2 err st1 H1 H2 Hfs Hload Hm1 Hm2.
    destruct (faithful_keys s1 Hf H1) as (Ht1 & _ & Hn1).
    destruct (faithful_keys s2 Hf H2) as (Ht2 & _ & Hn2).
    apply (Hmiss s1 s2 err st1); try assumption.
    - rewrite Ht1, Ht2, !trimSpace_empty_fields. by rewrite Hfs.
    - by rewrite Hn1, Hn2, !fields_lower_trim, Hfs. }
  split; [|split; [|split; [|split]]].
  - intros s1 s2 H1 H2 Hsp. apply (Hsame s1 s2 H1 H2).
    by apply spelling_upper.
  - intros s1 s2 err st1 H1 H2 Hre. apply (Hlong s1 s2 err st1 H1 H2).
    by apply respelling_fields.
  - by apply Hsame.
  - by apply Hsame.
  - intros err st1 Hload Hm1 Hm2.
    destruct (faithful_keys "transMission   control" Hf eq_refl)
      as (_ & Hk1 & _).
    destruct (faithful_keys "Transmission Control" Hf eq_refl)
      as (_ & Hk2 & _).
    apply (Hlong _ _ err st1); try reflexivity; try assumption.
    + by rewrite Hk1.
    + by rewrite Hk2.
Qed.

(** C10: in every state of the package, a call of [LookupDecimal] on a
    name that [strings.TrimSpace] trims to the empty string, that is, a
    name that is empty or made of white space only, returns [(0, false)]
    once initialisation has returned, whatever the entry list and the
    three maps hold. *)
Theorem LookupDecimal_blank (st st1 : state) (err : option error)
    (name : string) :
  TrimSpace name = EmptyString →
  ensureLoaded st = Some (err, st1) →
  LookupDecimal name st = Some ((0, false), st1).
Proof.
  intros Hblank Hload. apply LookupDecimal_Some. exists err.
  split; [exact Hload|]. destruct err; [reflexivity|].
  unfold readDecimal. rewrite Hblank. by destruct (_ && _).
Qed.

End Spellings.

(** ** The functions on the sample sources *)

Module Examples.
Import Samples.

(** C1: the code at the failing input.  The embedded file is the sample
    registry, which has TCP and no UDP; the override is a source with UDP
    alone.  [LoadFromReader] returns nil and leaves tables that hold UDP
    only, but it also clears the done flag of [loadOnce], so the next
    query parses the embedded file over them: TCP is found again and UDP
    is not. *)
Theorem override_lost_at_next_query :
  let st1 := after (LoadFromReader (L := sampleGo) udpOnly initial) in
  let st2 := after (LookupDecimal (L := sampleGo) "TCP" st1) in
  LoadFromReader (L := sampleGo) udpOnly initial = Some (None, st1) ∧
  readDecimal (L := sampleGo) st1 "UDP" = (17, true) ∧
  readDecimal (L := sampleGo) st1 "TCP" = (0, false) ∧
  loadOnce st1 = false ∧
  LookupDecimal (L := sampleGo) "TCP" st1 = Some ((6, true), st2) ∧
  LookupDecimal (L := sampleGo) "UDP" st2 = Some ((0, false), st2).
Proof. vm_compute. repeat split; reflexivity. Qed.

(** Against C2 as stated: rows [1-5] and [3] overlap at 3; the earlier row
    is the first to claim 3, and 3 is bound to the later row. *)
Lemma overlap_later_row_owns :
  let st' := after (loadFromReaderLocked (L := sampleGo) overlapping initial) in
  loadFromReaderLocked (L := sampleGo) overlapping initial = Some (None, st') ∧
  entries st' = [rowA; rowB] ∧
  firstOwner 3 (entries st') = Some rowA ∧
  mapGet (byNumber st') 3 = Some rowB ∧
  mapGet (byNumber st') 3 ≠ firstOwner 3 (entries st').
Proof. vm_compute. repeat split; try reflexivity. discriminate. Qed.

(** Against C3 as stated: after a query has loaded the sample registry, an
    override from an empty source, and one from a source with a bare
    quote, return an error; the entry list is still there, no error is
    cached, and the next query for TCP answers 6. *)
Lemma failed_override_still_answers :
  let st1 := after (LookupDecimal (L := sampleGo) "TCP" initial) in
  let st2 := after (LoadFromReader (L := sampleGo) EmptyString st1) in
  let st3 := after (LoadFromReader (L := sampleGo) bareQuote st1) in
  LookupDecimal (L := sampleGo) "TCP" initial = Some ((6, true), st1) ∧
  LoadFromReader (L := sampleGo) EmptyString st1 = Some (Some ErrCsvEmpty, st2) ∧
  (∃ c, LoadFromReader (L := sampleGo) bareQuote st1
        = Some (Some (ErrRead c), st3)) ∧
  entries st2 = entries st1 ∧ entries st3 = entries st1 ∧
  length (entries st1) = 5%nat ∧
  loadErr st2 = None ∧ loadErr st3 = None ∧
  fst <$> LookupDecimal (L := sampleGo) "TCP" st2 = Some (6, true) ∧
  fst <$> LookupDecimal (L := sampleGo) "TCP" st3 = Some (6, true).
Proof. vm_compute. repeat split; try reflexivity. eexists. reflexivity. Qed.

(** Against C4 as stated: a source that is a header row and nothing else
    is parsed without error. *)
Lemma header_only_is_no_failure :
  ReadAll (GoLib := sampleGo) headerOnly = inr [Split header comma] ∧
  loadFromReaderLocked (L := sampleGo) headerOnly initial
  = Some (None, resetTables initial).
Proof. vm_compute. split; reflexivity. Qed.

(** Against C5 as stated: the entry for [10-20] is in the list and 12 is
    in its range, and [LookupByNumber(12)] returns the entry for
    [12-14]. *)
Lemma nested_lookup_returns_inner :
  let st' := after (LookupByNumber (L := asciiGo nested []) 12 initial) in
  LookupByNumber (L := asciiGo nested []) 12 initial
  = Some ((Some mid, true), st') ∧
  loadErr st' = None ∧
  entries st' = [wide; mid] ∧ covers 12 wide = true ∧ Some mid ≠ Some wide.
Proof. vm_compute. repeat split; try reflexivity. discriminate. Qed.

(** Against C7 as stated: with a row whose keyword is the long name of
    TCP, the two spellings of the long name get different answers. *)
Lemma keyword_shadows_long_name :
  fst <$> LookupDecimal (L := asciiGo shadowed []) "transMission   control"
            initial = Some (6, true) ∧
  fst <$> LookupDecimal (L := asciiGo shadowed []) "Transmission Control"
            initial = Some (9, true) ∧
  fst <$> LookupDecimal (L := asciiGo shadowed []) "transMission   control"
            initial
  ≠ fst <$> LookupDecimal (L := asciiGo shadowed []) "Transmission Control"
              initial.
Proof. vm_compute. repeat split; try reflexivity. discriminate. Qed.

End Examples.

(** ** The theorems at the sample sources *)

Module Witnesses.
Import Samples.

Lemma byNumber_last_row_wins_witness :
  loadFromReaderLocked (L := sampleGo) overlapping initial
  = Some (None, parsedOverlap) ∧
  (mapGet (byNumber parsedOverlap) 3 = lastOwner 3 (entries parsedOverlap) ∧
   (∀ l1 e l2,
      entries parsedOverlap = l1 ++ e :: l2 → covers 3 e = true →
      Forall (λ e', covers 3 e' = false) l2 →
      mapGet (byNumber parsedOverlap) 3 = Some e) ∧
   (Forall (λ e, covers 3 e = false) (entries parsedOverlap) →
    mapGet (byNumber parsedOverlap) 3 = None)).
Proof.
  assert (Hload : loadFromReaderLocked (L := sampleGo) overlapping initial
                  = Some (None, parsedOverlap)) by (vm_compute; reflexivity).
  split; [exact Hload|].
  exact (byNumber_last_row_wins (H := sampleGo) overlapping initial
           parsedOverlap 3 Hload).
Defined.

Lemma LookupByNumber_in_range_witness :
  reachable (L := sampleGo) initial ∧
  LookupByNumber (L := sampleGo) 150 initial
  = Some ((Some unassigned, true), loaded) ∧
  loadErr loaded = None ∧ unassigned ∈ entries loaded ∧
  covers 150 unassigned = true ∧
  (true = true ∧
   (∃ e', Some unassigned = Some e' ∧
          lastOwner 150 (entries loaded) = Some e' ∧
          covers 150 e' = true ∧ e' ∈ entries loaded) ∧
   (∀ l1 l2, entries loaded = l1 ++ unassigned :: l2 →
             Forall (λ e', covers 150 e' = false) l2 →
             Some unassigned = Some unassigned)).
Proof.
  assert (Hcall : LookupByNumber (L := sampleGo) 150 initial
                  = Some ((Some unassigned, true), loaded))
    by (vm_compute; reflexivity).
  assert (Herr : loadErr loaded = None) by (vm_compute; reflexivity).
  assert (Hin : unassigned ∈ entries loaded)
    by (vm_compute; repeat constructor).
  assert (Hcov : covers 150 unassigned = true) by (vm_compute; reflexivity).
  do 4 (split; [assumption || apply reach_initial|]).
  split; [exact Hcov|].
  exact (LookupByNumber_in_range (H := sampleGo) initial loaded 150
           (Some unassigned) true unassigned (reach_initial (L := sampleGo))
           Hcall Herr Hin Hcov).
Defined.

Lemma parse_keeps_numeric_rows_witness :
  ReadAll (GoLib := sampleGo) registry = inr registryRecords ∧
  loadFromReaderLocked (L := sampleGo) registry initial
  = Some (None, parsedRegistry) ∧
  length (entries parsedRegistry) = 5%nat ∧
  ((∀ e, e ∈ entries parsedRegistry →
      DecimalStart e <= DecimalEnd e ∧
      ∃ row, row ∈ drop 1 registryRecords ∧
             e = entryOfRow (L := sampleGo) row (DecimalStart e) (DecimalEnd e) ∧
             ((isIntegerId (identifier (L := sampleGo) row) (DecimalStart e) ∧
               DecimalEnd e = DecimalStart e ∧ 0 <= DecimalStart e) ∨
              isRangeId (L := sampleGo) (identifier (L := sampleGo) row)
                (DecimalStart e) (DecimalEnd e))) ∧
   (∀ row s, refused (L := sampleGo) (identifier (L := sampleGo) row) →
             processRow (L := sampleGo) row s = Some s)).
Proof.
  assert (Hread : ReadAll (GoLib := sampleGo) registry = inr registryRecords)
    by (vm_compute; reflexivity).
  assert (Hload : loadFromReaderLocked (L := sampleGo) registry initial
                  = Some (None, parsedRegistry)) by (vm_compute; reflexivity).
  split; [exact Hread|]. split; [exact Hload|].
  split; [vm_compute; reflexivity|].
  exact (parse_keeps_numeric_rows (H := sampleGo) registry registryRecords
           initial parsedRegistry Hread Hload).
Defined.

Lemma LookupKeyword_LookupProtocolName_found_witness :
  LookupByNumber (L := sampleGo) 6 initial = Some ((Some tcp, true), loaded) ∧
  (∃ s found,
     LookupKeyword (L := sampleGo) 6 initial = Some ((s, found), loaded) ∧
     (found = false ↔
      true = false ∨ Some tcp = None ∨
      ∃ e, Some tcp = Some e ∧ Keyword e = EmptyString) ∧
     (found = false → s = EmptyString) ∧
     (found = true → ∃ e, Some tcp = Some e ∧ s = Keyword e)) ∧
  (∃ s found,
     LookupProtocolName (L := sampleGo) 6 initial = Some ((s, found), loaded) ∧
     (found = false ↔
      true = false ∨ Some tcp = None ∨
      ∃ e, Some tcp = Some e ∧ Protocol e = EmptyString) ∧
     (found = false → s = EmptyString) ∧
     (found = true → ∃ e, Some tcp = Some e ∧ s = Protocol e)).
Proof.
  assert (Hcall : LookupByNumber (L := sampleGo) 6 initial
                  = Some ((Some tcp, true), loaded))
    by (vm_compute; reflexivity).
  split; [exact Hcall|].
  exact (LookupKeyword_LookupProtocolName_found (H := sampleGo) initial
           loaded 6 (Some tcp) true Hcall).
Defined.

Lemma LookupDecimal_keyword_first_witness :
  ensureLoaded (L := sampleGo) initial = Some (None, loaded) ∧
  ∃ res,
    LookupDecimal (L := sampleGo) " icmp " initial = Some (res, loaded) ∧
    (TrimSpace (GoLib := sampleGo) " icmp " = EmptyString →
     res = (0, false)) ∧
    (TrimSpace (GoLib := sampleGo) " icmp " ≠ EmptyString →
     (∀ e, mapGet (byKeyword loaded)
             (ToUpper (GoLib := sampleGo)
                (TrimSpace (GoLib := sampleGo) " icmp ")) = Some e →
           res = (DecimalStart e, true)) ∧
     (mapGet (byKeyword loaded)
        (ToUpper (GoLib := sampleGo)
           (TrimSpace (GoLib := sampleGo) " icmp ")) = None →
      (∀ e, mapGet (byProtocolName loaded)
              (normalizeProtoName (L := sampleGo)
                 (TrimSpace (GoLib := sampleGo) " icmp ")) = Some e →
            res = (DecimalStart e, true)) ∧
      (mapGet (byProtocolName loaded)
         (normalizeProtoName (L := sampleGo)
            (TrimSpace (GoLib := sampleGo) " icmp ")) = None →
       res = (0, false)))).
Proof.
  assert (Hload : ensureLoaded (L := sampleGo) initial = Some (None, loaded))
    by (vm_compute; reflexivity).
  split; [exact Hload|].
  exact (LookupDecimal_keyword_first (H := sampleGo) initial loaded " icmp "
           Hload).
Defined.

Lemma loadFromReaderLocked_error_witness :
  ReadAll (GoLib := sampleGo) headerOnly = inr [Split header comma] ∧
  ReadAll (GoLib := sampleGo) EmptyString = inr [] ∧
  loadFromReaderLocked (L := sampleGo) headerOnly initial
  = Some (None, resetTables initial) ∧
  loadFromReaderLocked (L := sampleGo) EmptyString initial
  = Some (Some ErrCsvEmpty, initial).
Proof.
  assert (Hhdr : ReadAll (GoLib := sampleGo) headerOnly
                 = inr [Split header comma]) by (vm_compute; reflexivity).
  assert (Hnone : ReadAll (GoLib := sampleGo) EmptyString = inr [])
    by (vm_compute; reflexivity).
  split; [exact Hhdr|]. split; [exact Hnone|]. split.
  - exact (proj2 (loadFromReaderLocked_error (H := sampleGo) headerOnly
                    initial) _ Hhdr).
  - apply (proj1 (loadFromReaderLocked_error (H := sampleGo) EmptyString
                    initial)).
    split; [reflexivity|]. right. split; [exact Hnone|reflexivity].
Defined.

Lemma LoadFromReader_failure_keeps_tables_witness :
  ReadAll (GoLib := sampleGo) EmptyString = inr [] ∧
  ∃ err st',
    LoadFromReader (L := sampleGo) EmptyString loaded = Some (Some err, st') ∧
    entries st' = entries loaded ∧ byNumber st' = byNumber loaded ∧
    byKeyword st' = byKeyword loaded ∧
    byProtocolName st' = byProtocolName loaded ∧ loadErr st' = None ∧
    (∀ n, readByNumber st' n = readByNumber loaded n) ∧
    (∀ name, readDecimal (L := sampleGo) st' name
             = readDecimal (L := sampleGo) loaded name).
Proof.
  assert (Hnone : ReadAll (GoLib := sampleGo) EmptyString = inr [])
    by (vm_compute; reflexivity).
  split; [exact Hnone|].
  exact (LoadFromReader_failure_keeps_tables (H := sampleGo) EmptyString
           loaded (or_intror Hnone)).
Defined.

Lemma LookupDecimal_case_and_space_witness :
  asciiFaithful (L := sampleGo) ∧
  ensureLoaded (L := sampleGo) initial = Some (None, loaded) ∧
  AsciiLib.respelling "Transmission Control" tabbed ∧
  mapGet (byKeyword loaded) (ToUpper (GoLib := sampleGo) tabbed) = None ∧
  mapGet (byKeyword loaded) "TRANSMISSION CONTROL" = None ∧
  LookupDecimal (L := sampleGo) "Transmission Control" initial
  = LookupDecimal (L := sampleGo) tabbed initial ∧
  LookupDecimal (L := sampleGo) tabbed initial = Some ((6, true), loaded) ∧
  LookupDecimal (L := sampleGo) "transMission   control" initial
  = LookupDecimal (L := sampleGo) "Transmission Control" initial ∧
  LookupDecimal (L := sampleGo) "tcp" initial
  = LookupDecimal (L := sampleGo) " tCP" initial.
Proof.
  assert (Hf : asciiFaithful (L := sampleGo)) by apply asciiGo_faithful.
  assert (Hload : ensureLoaded (L := sampleGo) initial = Some (None, loaded))
    by (vm_compute; reflexivity).
  assert (Hre : AsciiLib.respelling "Transmission Control" tabbed).
  { eapply AsciiLib.respelling_trans;
      [exact (AsciiLib.respelling_other "Transmission" " " tab "Control"
                eq_refl eq_refl)|].
    eapply AsciiLib.respelling_trans;
      [exact (AsciiLib.respelling_longer "Transmission" tab " " "Control"
                eq_refl eq_refl)|].
    apply AsciiLib.respelling_spelling.
    eapply AsciiLib.spelling_trans;
      [exact (AsciiLib.spelling_case EmptyString "T"
                ("ransmission" +:+ String tab " Control"))|].
    eapply AsciiLib.spelling_trans;
      [exact (AsciiLib.spelling_case "trans" "m"
                ("ission" +:+ String tab " Control"))|].
    exact (AsciiLib.spelling_case ("transMission" +:+ String tab " ") "C"
             "ontrol"). }
  assert (Hk1 : mapGet (byKeyword loaded) (ToUpper (GoLib := sampleGo) tabbed)
                = None) by (vm_compute; reflexivity).
  assert (Hk2 : mapGet (byKeyword loaded) "TRANSMISSION CONTROL" = None)
    by (vm_compute; reflexivity).
  assert (Hk3 : mapGet (byKeyword loaded) "TRANSMISSION   CONTROL" = None)
    by (vm_compute; reflexivity).
  do 5 (split; [assumption|]).
  destruct (LookupDecimal_case_and_space (H := sampleGo) initial)
    as (_ & _ & Hascii).
  destruct (Hascii Hf) as (Hcase & Hruns & _ & _ & Hlong).
  split; [exact (Hruns "Transmission Control" tabbed None loaded
                   eq_refl eq_refl Hre Hload Hk2 Hk1)|].
  split; [vm_compute; reflexivity|].
  split; [exact (Hlong None loaded Hload Hk3 Hk2)|].
  apply Hcase; [reflexivity|reflexivity|].
  eapply AsciiLib.spelling_trans;
    [exact (AsciiLib.spelling_before " " "tcp" eq_refl)|].
  eapply AsciiLib.spelling_trans;
    [exact (AsciiLib.spelling_case " t" "c" "p")|].
  exact (AsciiLib.spelling_case " tC" "p" EmptyString).
Defined.

Lemma LookupDecimal_blank_witness :
  TrimSpace (GoLib := sampleGo) (String " " (String tab EmptyString))
  = EmptyString ∧
  ensureLoaded (L := sampleGo) initial = Some (None, loaded) ∧
  LookupDecimal (L := sampleGo) (String " " (String tab EmptyString)) initial
  = Some ((0, false), loaded).
Proof.
  assert (Hblank : TrimSpace (GoLib := sampleGo)
                     (String " " (String tab EmptyString)) = EmptyString)
    by (vm_compute; reflexivity).
  assert (Hload : ensureLoaded (L := sampleGo) initial = Some (None, loaded))
    by (vm_compute; reflexivity).
  split; [exact Hblank|]. split; [exact Hload|].
  exact (LookupDecimal_blank (H := sampleGo) initial loaded None _
           Hblank Hload).
Defined.

End Witnesses.

(** * Further properties *)

(** ** One record, exactly *)

Section RowTables.
Context `{GoLib}.

Lemma bindKeyword_lookup (k : string) (e : Entry) (st st' : state) :
  bindKeyword k e st = Some st' →
  ∀ k', mapGet (byKeyword st') k' =
        match mapGet (byKeyword st) k' with
        | Some x => Some x
        | None => if decide (k = k') then Some e else None
        end.
Proof.
  unfold bindKeyword, mapGet, mapSet.
  destruct (byKeyword st) as [g|] eqn:Hg; simpl; [|discriminate].
  destruct (g !! k) as [x|] eqn:Hk; intros [= <-] k'; simpl; rewrite ?Hg; simpl.
  - destruct (g !! k') eqn:Hk'; [reflexivity|].
    rewrite decide_False; [reflexivity|congruence].
  - destruct (decide (k = k')) as [<-|Hne].
    + by rewrite lookup_insert_eq, Hk.
    + rewrite lookup_insert_ne by done. by destruct (g !! k').
Qed.

Lemma bindProtocolName_lookup (p : string) (e : Entry) (st st' : state) :
  bindProtocolName p e st = Some st' →
  ∀ p', mapGet (byProtocolName st') p' =
        match mapGet (byProtocolName st) p' with
        | Some x => Some x
        | None => if decide (p = p') then Some e else None
        end.
Proof.
  unfold bindProtocolName, mapGet, mapSet.
  destruct (byProtocolName st) as [g|] eqn:Hg; simpl; [|discriminate].
  destruct (g !! p) as [x|] eqn:Hk; intros [= <-] p'; simpl; rewrite ?Hg; simpl.
  - destruct (g !! p') eqn:Hk'; [reflexivity|].
    rewrite decide_False; [reflexivity|congruence].
  - destruct (decide (p = p')) as [<-|Hne].
    + by rewrite lookup_insert_eq, Hk.
    + rewrite lookup_insert_ne by done. by destruct (g !! p').
Qed.

Lemma keywordStep (kw : string) (e : Entry) (s1 s2 : state) :
  (if bool_decide (kw = EmptyString) then Some s1
   else bindKeyword (ToUpper kw) e s1) = Some s2 →
  entries s2 = entries s1 ∧ byProtocolName s2 = byProtocolName s1 ∧
  ∀ k, mapGet (byKeyword s2) k =
       match mapGet (byKeyword s1) k with
       | Some x => Some x
       | None =>
           if decide (kw ≠ EmptyString ∧ ToUpper kw = k) then Some e else None
       end.
Proof.
  case_bool_decide as Hkw.
  - intros [= <-]. do 2 (split; [reflexivity|]). intros k.
    rewrite decide_False by tauto. by destruct (mapGet _ k).
  - intros Hb. pose proof (bindKeyword_Some _ _ _ _ Hb) as (? & _ & ? & _).
    do 2 (split; [assumption|]). intros k.
    rewrite (bindKeyword_lookup _ _ _ _ Hb k).
    destruct (mapGet (byKeyword s1) k); [reflexivity|].
    destruct (decide (ToUpper kw = k)).
    + by rewrite decide_True.
    + rewrite decide_False; [reflexivity|tauto].
Qed.

Lemma protocolStep (pn : string) (e : Entry) (s2 s3 : state) :
  (if bool_decide (pn = EmptyString) then Some s2
   else bindProtocolName (normalizeProtoName pn) e s2) = Some s3 →
  entries s3 = entries s2 ∧ byKeyword s3 = byKeyword s2 ∧
  ∀ p, mapGet (byProtocolName s3) p =
       match mapGet (byProtocolName s2) p with
       | Some x => Some x
       | None =>
           if decide (pn ≠ EmptyString ∧ normalizeProtoName pn = p)
           then Some e else None
       end.
Proof.
  case_bool_decide as Hpn.
  - intros [= <-]. do 2 (split; [reflexivity|]). intros p.
    rewrite decide_False by tauto. by destruct (mapGet _ p).
  - intros Hb.
    pose proof (bindProtocolName_Some _ _ _ _ Hb) as (? & _ & ? & _).
    do 2 (split; [assumption|]). intros p.
    rewrite (bindProtocolName_lookup _ _ _ _ Hb p).
    destruct (mapGet (byProtocolName s2) p); [reflexivity|].
    destruct (decide (normalizeProtoName pn = p)).
    + by rewrite decide_True.
    + rewrite decide_False; [reflexivity|tauto].
Qed.

(** What one record does to the entry list and to the two name indexes. *)
Lemma processRow_keptEntry (row : list string) (st st' : state) :
  processRow row st = Some st' →
  match keptEntry row with
  | None => st' = st
  | Some e =>
      DecimalEnd e ≠ maxInt ∧ entries st' = entries st ++ [e] ∧
      (∀ k, mapGet (byKeyword st') k =
            match mapGet (byKeyword st) k with
            | Some x => Some x
            | None =>
                if decide (Keyword e ≠ EmptyString ∧ ToUpper (Keyword e) = k)
                then Some e else None
            end) ∧
      (∀ p, mapGet (byProtocolName st') p =
            match mapGet (byProtocolName st) p with
            | Some x => Some x
            | None =>
                if decide (Protocol e ≠ EmptyString ∧
                           normalizeProtoName (Protocol e) = p)
                then Some e else None
            end)
  end.
Proof.
  unfold processRow, keptEntry. destruct row as [|f row]; [by intros [= <-]|].
  set (r := f :: row).
  destruct (bool_decide (TrimSpace (col r 0) = EmptyString));
    [by intros [= <-]|].
  destruct (parseDecimalField _) as [err|[start end_]] eqn:Hp;
    [by intros [= <-]|].
  fold (entryOfRow r start end_). set (e := entryOfRow r start end_).
  destruct (fillByNumber _ _ _ _) as [s1|] eqn:H1; simpl; [|discriminate].
  apply fillByNumber_Some in H1 as (Hmax & He1 & Hk1 & Hp1 & _).
  simpl in He1, Hk1, Hp1. intros Hrest.
  assert (∃ s2, (if bool_decide (TrimSpace (col r 1) = EmptyString)
                 then Some s1
                 else bindKeyword (ToUpper (TrimSpace (col r 1))) e s1)
                = Some s2 ∧
                (if bool_decide (TrimSpace (col r 2) = EmptyString)
                 then Some s2
                 else bindProtocolName
                        (normalizeProtoName (TrimSpace (col r 2))) e s2)
                = Some st') as (s2 & H2 & H3).
  { destruct (if bool_decide (TrimSpace (col r 1) = EmptyString) then _ else _)
      as [s2|]; simpl in Hrest; [eauto|discriminate]. }
  clear Hrest.
  apply keywordStep in H2 as (He2 & Hp2 & Hk2).
  apply protocolStep in H3 as (He3 & Hk3 & Hp3).
  split; [exact Hmax|]. split; [congruence|]. split.
  - intros k. rewrite Hk3, (Hk2 k), Hk1. reflexivity.
  - intros p. rewrite (Hp3 p), Hp2, Hp1. reflexivity.
Qed.

End RowTables.

(** ** The entry list and the name indexes after a parse *)

Section ParseTables.
Context `{GoLib}.

Lemma head_filter_snoc {A : Type} (P : A → Prop) `{∀ x, Decision (P x)}
    (l : list A) (x : A) :
  head (filter P (l ++ [x])) =
  match head (filter P l) with
  | Some y => Some y
  | None => if decide (P x) then Some x else None
  end.
Proof.
  rewrite filter_app. destruct (filter P l) as [|y l'] eqn:Hl; simpl.
  - rewrite filter_cons, filter_nil. by destruct (decide (P x)).
  - reflexivity.
Qed.

Lemma head_filter_Some {A : Type} (P : A → Prop) `{∀ x, Decision (P x)}
    (l : list A) (x : A) :
  head (filter P l) = Some x ↔
  ∃ l1 l2, l = l1 ++ x :: l2 ∧ P x ∧ Forall (λ y, ¬ P y) l1.
Proof.
  induction l as [|y l IH]; simpl.
  - split; [discriminate|]. intros (l1 & l2 & Hl & _). by destruct l1.
  - rewrite filter_cons. destruct (decide (P y)) as [Hy|Hy]; simpl.
    + split.
      * intros [= ->]. exists [], l. auto.
      * intros (l1 & l2 & Hl & Hx & Hl1). destruct l1 as [|z l1].
        -- by injection Hl as ->.
        -- injection Hl as -> _. by apply Forall_cons in Hl1 as [? _].
    + rewrite IH. split.
      * intros (l1 & l2 & -> & Hx & Hl1). exists (y :: l1), l2.
        split; [done|]. split; [done|]. by apply Forall_cons.
      * intros (l1 & l2 & Hl & Hx & Hl1). destruct l1 as [|z l1].
        -- injection Hl as -> _. contradiction.
        -- injection Hl as -> ->. apply Forall_cons in Hl1 as [_ ?]. eauto.
Qed.

Lemma head_filter_None {A : Type} (P : A → Prop) `{∀ x, Decision (P x)}
    (l : list A) :
  head (filter P l) = None ↔ Forall (λ y, ¬ P y) l.
Proof.
  induction l as [|y l IH]; simpl; [by split|].
  rewrite filter_cons, Forall_cons. destruct (decide (P y)); simpl.
  - split; [discriminate|tauto].
  - rewrite IH. tauto.
Qed.

Lemma processRow_named (row : list string) (st st' : state) :
  named st → processRow row st = Some st' → named st'.
Proof.
  intros [Hk Hp] Hrow. apply processRow_keptEntry in Hrow.
  destruct (keptEntry row) as [e|]; [|by subst].
  destruct Hrow as (_ & He & Hk' & Hp'). split.
  - intros k. rewrite (Hk' k), He. unfold firstKeyword.
    rewrite head_filter_snoc. fold (firstKeyword k (entries st)).
    rewrite <- (Hk k). reflexivity.
  - intros p. rewrite (Hp' p), He. unfold firstProtocol.
    rewrite head_filter_snoc. fold (firstProtocol p (entries st)).
    rewrite <- (Hp p). reflexivity.
Qed.

Lemma processRow_built (row : list string) (st st' : state) :
  built st → processRow row st = Some st' → built st'.
Proof.
  intros Hb Hrow. apply processRow_keptEntry in Hrow.
  destruct (keptEntry row) as [e|] eqn:Hkept; [|by subst].
  destruct Hrow as (Hmax & He & _). intros x. rewrite He, elem_of_app.
  intros [Hx| ->%list_elem_of_singleton]; [by apply Hb|]. eauto.
Qed.

Lemma rows_entries (rows : list (list string)) (st st' : state) :
  forEach processRow rows st = Some st' →
  entries st' = entries st ++ omap keptEntry rows.
Proof.
  revert st. induction rows as [|row rows IH]; simpl; intros st.
  - intros [= <-]. by rewrite app_nil_r.
  - destruct (processRow row st) as [s1|] eqn:Hrow; simpl; [|discriminate].
    intros Hrest. rewrite (IH _ Hrest). apply processRow_keptEntry in Hrow.
    destruct (keptEntry row) as [e|]; [|by subst].
    destruct Hrow as (_ & -> & _). by rewrite <- app_assoc.
Qed.

Lemma resetTables_named (st : state) : named (resetTables st).
Proof. split; intros k; reflexivity. Qed.

Lemma resetTables_built (st : state) : built (resetTables st).
Proof. intros e He. simpl in He. by apply not_elem_of_nil in He. Qed.

Lemma loadFromReaderLocked_named (r : string) (st st' : state)
    (err : option error) :
  named st → loadFromReaderLocked r st = Some (err, st') → named st'.
Proof.
  intros Hn [(? & _ & _ & ->)|[(_ & _ & ->)|(hd & rows & _ & _ & Hrows)]]
    %loadFromReaderLocked_Some; try done.
  revert Hrows. apply (forEach_inv processRow named);
    [|apply resetTables_named].
  intros row s s' _. apply processRow_named.
Qed.

Lemma loadFromReaderLocked_built (r : string) (st st' : state)
    (err : option error) :
  built st → loadFromReaderLocked r st = Some (err, st') → built st'.
Proof.
  intros Hn [(? & _ & _ & ->)|[(_ & _ & ->)|(hd & rows & _ & _ & Hrows)]]
    %loadFromReaderLocked_Some; try done.
  revert Hrows. apply (forEach_inv processRow built);
    [|apply resetTables_built].
  intros row s s' _. apply processRow_built.
Qed.

(** X1: after a parse that returns nil, the entry list holds, in the
    order of the records after the first, the entry of every record that
    the loop keeps, and nothing else. *)
Theorem parse_entries_in_file_order (r : string)
    (records : list (list string)) (st st' : state) :
  ReadAll r = inr records →
  loadFromReaderLocked r st = Some (None, st') →
  entries st' = omap keptEntry (drop 1 records).
Proof.
  intros Hread
    [(? & _ & [=] & _)|[(_ & [=] & _)|(hd & rows & Hr & _ & Hrows)]]
    %loadFromReaderLocked_Some.
  rewrite Hread in Hr. injection Hr as ->. simpl. rewrite drop_0.
  by rewrite (rows_entries _ _ _ Hrows).
Qed.

(** X2: after a parse that returns nil, an upper-cased keyword is bound
    in the by-keyword index to the first entry, in file order, that has
    this keyword (a later entry with the same keyword is in the list but
    not in the index), and a key that is no entry's upper-cased keyword is
    not bound. *)
Theorem byKeyword_first_row_wins (r : string) (st st' : state) (k : string) :
  loadFromReaderLocked r st = Some (None, st') →
  mapGet (byKeyword st') k = firstKeyword k (entries st') ∧
  (∀ l1 e l2,
     entries st' = l1 ++ e :: l2 →
     Keyword e ≠ EmptyString → ToUpper (Keyword e) = k →
     Forall (λ x, ¬ (Keyword x ≠ EmptyString ∧ ToUpper (Keyword x) = k)) l1 →
     mapGet (byKeyword st') k = Some e) ∧
  (Forall (λ x, ¬ (Keyword x ≠ EmptyString ∧ ToUpper (Keyword x) = k))
     (entries st') →
   mapGet (byKeyword st') k = None).
Proof.
  intros Hload.
  assert (Hn : named st').
  { apply loadFromReaderLocked_Some in Hload
      as [(? & _ & [=] & _)|[(_ & [=] & _)|(hd & rows & _ & _ & Hrows)]].
    revert Hrows. apply (forEach_inv processRow named);
      [|apply resetTables_named].
    intros row s s' _. apply processRow_named. }
  destruct Hn as [Hk _]. split; [apply Hk|]. split.
  - intros l1 e l2 Hl Hne Hup Hl1. rewrite (Hk k).
    apply head_filter_Some. eauto 10.
  - intros Hnone. rewrite (Hk k). by apply head_filter_None.
Qed.

(** X3: after a parse that returns nil, a normalised long name is bound
    in the by-long-name index to the first entry, in file order, whose
    long name normalises to it, and a key that is no entry's normalised
    long name is not bound. *)
Theorem byProtocolName_first_row_wins (r : string) (st st' : state)
    (p : string) :
  loadFromReaderLocked r st = Some (None, st') →
  mapGet (byProtocolName st') p = firstProtocol p (entries st') ∧
  (∀ l1 e l2,
     entries st' = l1 ++ e :: l2 →
     Protocol e ≠ EmptyString → normalizeProtoName (Protocol e) = p →
     Forall (λ x, ¬ (Protocol x ≠ EmptyString ∧
                     normalizeProtoName (Protocol x) = p)) l1 →
     mapGet (byProtocolName st') p = Some e) ∧
  (Forall (λ x, ¬ (Protocol x ≠ EmptyString ∧
                   normalizeProtoName (Protocol x) = p)) (entries st') →
   mapGet (byProtocolName st') p = None).
Proof.
  intros Hload.
  assert (Hn : named st').
  { apply loadFromReaderLocked_Some in Hload
      as [(? & _ & [=] & _)|[(_ & [=] & _)|(hd & rows & _ & _ & Hrows)]].
    revert Hrows. apply (forEach_inv processRow named);
      [|apply resetTables_named].
    intros row s s' _. apply processRow_named. }
  destruct Hn as [_ Hp]. split; [apply Hp|]. split.
  - intros l1 e l2 Hl Hne Hup Hl1. rewrite (Hp p).
    apply head_filter_Some. eauto 10.
  - intros Hnone. rewrite (Hp p). by apply head_filter_None.
Qed.

End ParseTables.

(** ** The tables in every reachable state *)

Section Lifecycle.
Context `{GoLib}.

(** A property of the tables that every parse keeps holds in every state
    the package can reach. *)
Lemma reachable_inv (I : state → Prop) :
  I initial →
  (∀ st o, I st → I (setLoadOnce o st)) →
  (∀ st e, I st → I (setLoadErr e st)) →
  (∀ r st st' err, I st → loadFromReaderLocked r st = Some (err, st') → I st') →
  ∀ st, reachable st → I st.
Proof.
  intros H0 Honce Herr Hload.
  assert (Hens : ∀ st st' err, I st → ensureLoaded st = Some (err, st') → I st').
  { intros st st' err Hi. unfold ensureLoaded, loadFromReader.
    destruct (loadOnce st); [by intros [= _ <-]|].
    case_bool_decide.
    - simpl. intros [= _ <-]. by apply Honce, Herr.
    - destruct (loadFromReaderLocked embeddedCSV st) as [[e s]|] eqn:Hl;
        simpl; [|discriminate].
      intros [= _ <-]. apply Honce, Herr. exact (Hload _ _ _ _ Hi Hl). }
  induction 1 as [|r st err st' _ IH Hc|p st err st' _ IH Hc
                  |n st res st' _ IH Hc|name st res st' _ IH Hc
                  |n st res st' _ IH Hc|n st res st' _ IH Hc].
  - exact H0.
  - unfold LoadFromReader in Hc. eapply Hload; [|exact Hc].
    by apply Herr, Honce.
  - unfold LoadFromFile, LoadFromReader in Hc.
    destruct (Open p); [by injection Hc as _ <-|].
    eapply Hload; [|exact Hc]. by apply Herr, Honce.
  - apply LookupByNumber_Some in Hc as (err & Hc & _). eauto.
  - apply LookupDecimal_Some in Hc as (err & Hc & _). eauto.
  - apply LookupKeyword_state in Hc as (r & Hc).
    apply LookupByNumber_Some in Hc as (err & Hc & _). eauto.
  - apply LookupProtocolName_state in Hc as (r & Hc).
    apply LookupByNumber_Some in Hc as (err & Hc & _). eauto.
Qed.

Lemma reachable_named (st : state) : reachable st → named st.
Proof.
  apply reachable_inv.
  - split; intros k; reflexivity.
  - intros s o Hs. exact Hs.
  - intros s e Hs. exact Hs.
  - intros r s s' err. apply loadFromReaderLocked_named.
Qed.

Lemma reachable_built (st : state) : reachable st → built st.
Proof.
  apply reachable_inv.
  - intros e He. by apply not_elem_of_nil in He.
  - intros s o Hs. exact Hs.
  - intros s e Hs. exact Hs.
  - intros r s s' err. apply loadFromReaderLocked_built.
Qed.

(** X4: once a query has run the lazy loader, every query run on the
    state it left returns what it returns on the state before, and leaves
    the state as it is: nothing is parsed a second time. *)
Theorem queries_repeat (st st' : state) (err : option error) (n : Z)
    (name : string) :
  ensureLoaded st = Some (err, st') →
  ensureLoaded st' = Some (err, st') ∧
  (∃ r, LookupByNumber n st = Some (r, st') ∧
        LookupByNumber n st' = Some (r, st')) ∧
  (∃ r, LookupDecimal name st = Some (r, st') ∧
        LookupDecimal name st' = Some (r, st')) ∧
  (∃ r, LookupKeyword n st = Some (r, st') ∧
        LookupKeyword n st' = Some (r, st')) ∧
  (∃ r, LookupProtocolName n st = Some (r, st') ∧
        LookupProtocolName n st' = Some (r, st')).
Proof.
  intros Hload.
  assert (Hagain : ensureLoaded st' = Some (err, st')).
  { pose proof (ensureLoaded_Some _ _ _ Hload) as (Ho & -> & _).
    by apply ensureLoaded_done. }
  split; [exact Hagain|].
  unfold LookupKeyword, LookupProtocolName, LookupByNumber, LookupDecimal.
  rewrite Hload, Hagain. simpl.
  assert (Hdup : ∀ (A : Type) (o : option (A * state)),
            (∃ r, o = Some (r, st')) →
            ∃ r, o = Some (r, st') ∧ o = Some (r, st'))
    by (intros A o [r ->]; eauto).
  destruct err; simpl.
  { repeat split; apply Hdup; eauto. }
  split; [apply Hdup; eauto|]. split; [apply Hdup; eauto|].
  destruct (readByNumber st' n) as [[x|] [|]]; simpl;
    split; apply Hdup; try case_bool_decide; eauto.
Qed.

(** X5: when the lazy loader reports an error (the embedded file is empty
    or cannot be parsed), the error is cached: every query from then on
    reports not found and leaves the state as it is, whatever the tables
    hold. *)
Theorem failed_initialisation_is_cached (st st' : state) (e : error) (n : Z)
    (name : string) :
  ensureLoaded st = Some (Some e, st') →
  loadErr st' = Some e ∧
  LookupByNumber n st' = Some ((None, false), st') ∧
  LookupDecimal name st' = Some ((0, false), st') ∧
  LookupKeyword n st' = Some ((EmptyString, false), st') ∧
  LookupProtocolName n st' = Some ((EmptyString, false), st').
Proof.
  intros Hload.
  pose proof (ensureLoaded_Some _ _ _ Hload) as (Ho & He & _).
  split; [done|].
  unfold LookupKeyword, LookupProtocolName, LookupByNumber, LookupDecimal.
  rewrite (ensureLoaded_done _ Ho), <- He. done.
Qed.

(** X6: in a state the package can reach, [LookupByNumber(n)] never
    returns an entry that is not in the entry list or whose range does not
    hold [n]; it returns nil exactly when it reports not found; and it
    reports not found when no entry's range holds [n]. *)
Theorem LookupByNumber_sound (st st' : state) (n : Z) (p : option Entry)
    (ok : bool) :
  reachable st →
  LookupByNumber n st = Some ((p, ok), st') →
  (ok = true → ∃ e, p = Some e ∧ e ∈ entries st' ∧ covers n e = true) ∧
  (ok = false ↔ p = None) ∧
  (Forall (λ e, covers n e = false) (entries st') → ok = false).
Proof.
  intros Hreach Hcall.
  assert (Hi : indexed st').
  { apply reachable_indexed. by eapply reach_LookupByNumber. }
  apply LookupByNumber_Some in Hcall as (err & _ & Hres).
  destruct err as [e|].
  { injection Hres as -> ->. repeat split; done. }
  unfold readByNumber in Hres. rewrite (Hi n) in Hres.
  destruct (lastOwner n (entries st')) as [e|] eqn:Hlast.
  - destruct (byNumber st'); injection Hres as -> ->.
    + apply lastOwner_Some in Hlast as (l1 & l2 & Hl & Hc & _).
      split; [|split; [done|]].
      * intros _. exists e. split; [done|]. split; [|done].
        rewrite Hl. apply elem_of_app. right. left.
      * rewrite Hl, Forall_app, Forall_cons. intros (_ & ? & _). congruence.
    + split; [done|]. split; [done|]. done.
  - assert ((p, ok) = (None, false)) as [= -> ->]
      by (by destruct (byNumber st')).
    repeat split; done.
Qed.

(** With name indexes that agree with the entry list, the tables are read
    as the list is searched. *)
Lemma readDecimal_named (st : state) (name : string) :
  named st →
  readDecimal st name =
  if bool_decide (TrimSpace name = EmptyString) then (0, false)
  else match firstKeyword (ToUpper (TrimSpace name)) (entries st) with
       | Some e => (DecimalStart e, true)
       | None =>
           match firstProtocol (normalizeProtoName (TrimSpace name))
                   (entries st) with
           | Some e => (DecimalStart e, true)
           | None => (0, false)
           end
       end.
Proof.
  intros [Hk Hp]. unfold readDecimal. rewrite <- Hk, <- Hp.
  destruct (bool_decide (byKeyword st = None) &&
            bool_decide (byProtocolName st = None)) eqn:Hnil;
    [|reflexivity].
  apply andb_prop in Hnil as [Hk0 Hp0].
  apply bool_decide_eq_true_1 in Hk0, Hp0. rewrite Hk0, Hp0. simpl.
  by case_bool_decide.
Qed.

(** X7: in a state the package can reach, after an initialisation without
    error, the answer of [LookupDecimal(name)] is read off the entry list
    alone: not found for a name that trims to nothing; else the
    [DecimalStart] of the first entry whose keyword is the name in upper
    case; else that of the first entry whose long name normalises as the
    name does; else not found. *)
Theorem LookupDecimal_from_entries (st st' : state) (name : string)
    (res : Z * bool) :
  reachable st →
  LookupDecimal name st = Some (res, st') →
  loadErr st' = None →
  res =
  if bool_decide (TrimSpace name = EmptyString) then (0, false)
  else match firstKeyword (ToUpper (TrimSpace name)) (entries st') with
       | Some e => (DecimalStart e, true)
       | None =>
           match firstProtocol (normalizeProtoName (TrimSpace name))
                   (entries st') with
           | Some e => (DecimalStart e, true)
           | None => (0, false)
           end
       end.
Proof.
  intros Hreach Hcall Herr.
  assert (Hn : named st').
  { apply reachable_named. by eapply reach_LookupDecimal. }
  apply LookupDecimal_Some in Hcall as (err & Hload & ->).
  apply ensureLoaded_Some in Hload as (_ & -> & _). rewrite Herr.
  by apply readDecimal_named.
Qed.

End Lifecycle.

(** ** What a parse depends on *)

Section Replace.
Context `{GoLib}.

Lemma forEach_fmap {A S : Type} (body : A → S → option S) (f : S → S)
    (l : list A) :
  (∀ x s, body x (f s) = f <$> body x s) →
  ∀ s, forEach body l (f s) = f <$> forEach body l s.
Proof.
  intros Hbody. induction l as [|x l IH]; intros s; simpl; [reflexivity|].
  rewrite Hbody. destruct (body x s) as [s1|]; simpl; [apply IH|reflexivity].
Qed.

(** The loop body does not read the two variables of the lazy loader, and
    hands them on. *)
Lemma processRow_flags (o : bool) (e : option error) (row : list string)
    (st : state) :
  processRow row (setLoadErr e (setLoadOnce o st))
  = (λ s, setLoadErr e (setLoadOnce o s)) <$> processRow row st.
Proof.
  unfold processRow. destruct row as [|f row]; [reflexivity|].
  set (r := f :: row). case_bool_decide; [reflexivity|].
  destruct (parseDecimalField _) as [err|[a b]]; [reflexivity|].
  set (x := {| DecimalStart := a |}).
  assert (Hfill : ∀ s,
    fillByNumber a b x (setLoadErr e (setLoadOnce o s))
    = (λ s, setLoadErr e (setLoadOnce o s)) <$> fillByNumber a b x s).
  { intros s. unfold fillByNumber. destruct (b =? maxInt); [reflexivity|].
    apply (forEach_fmap (bindNumber x)
             (λ s, setLoadErr e (setLoadOnce o s))).
    intros n s0. unfold bindNumber.
    simpl. by destruct (byNumber s0). }
  assert (Hkw : ∀ k s,
    bindKeyword k x (setLoadErr e (setLoadOnce o s))
    = (λ s, setLoadErr e (setLoadOnce o s)) <$> bindKeyword k x s).
  { intros k s. unfold bindKeyword. simpl.
    destruct (mapGet (byKeyword s) k); [reflexivity|].
    by destruct (byKeyword s). }
  assert (Hpn : ∀ p s,
    bindProtocolName p x (setLoadErr e (setLoadOnce o s))
    = (λ s, setLoadErr e (setLoadOnce o s)) <$> bindProtocolName p x s).
  { intros p s. unfold bindProtocolName. simpl.
    destruct (mapGet (byProtocolName s) p); [reflexivity|].
    by destruct (byProtocolName s). }
  change (setEntries (entries (setLoadErr e (setLoadOnce o st)) ++ [x])
            (setLoadErr e (setLoadOnce o st)))
    with (setLoadErr e (setLoadOnce o (setEntries (entries st ++ [x]) st))).
  rewrite Hfill.
  destruct (fillByNumber a b x _) as [s1|]; simpl; [|reflexivity].
  destruct (bool_decide (TrimSpace (col r 1) = EmptyString)); simpl.
  - destruct (bool_decide (TrimSpace (col r 2) = EmptyString));
      [reflexivity|apply Hpn].
  - rewrite Hkw. destruct (bindKeyword _ x s1) as [s2|]; simpl; [|reflexivity].
    destruct (bool_decide (TrimSpace (col r 2) = EmptyString));
      [reflexivity|apply Hpn].
Qed.

Lemma rows_from_initial (rows : list (list string)) (st : state) :
  forEach processRow rows (resetTables st)
  = (λ s, setLoadErr (loadErr st) (setLoadOnce (loadOnce st) s))
    <$> forEach processRow rows (resetTables initial).
Proof.
  rewrite <- (forEach_fmap processRow
                (λ s, setLoadErr (loadErr st) (setLoadOnce (loadOnce st) s)));
    [reflexivity|].
  intros row s. apply processRow_flags.
Qed.

(** X8: a parse that returns nil leaves tables that depend on the source
    alone: whatever the state before an override, [LoadFromReader]
    returns nil for the same sources and leaves the same entry list and
    the same three maps, with nothing of the tables it found. *)
Theorem override_replaces_tables (r : string) (st1 st2 s1 : state) :
  LoadFromReader r st1 = Some (None, s1) →
  ∃ s2, LoadFromReader r st2 = Some (None, s2) ∧ tables s2 = tables s1.
Proof.
  unfold LoadFromReader.
  intros [(? & _ & [=] & _)|[(_ & [=] & _)|(hd & rows & Hr & _ & Hrows)]]
    %loadFromReaderLocked_Some.
  rewrite rows_from_initial in Hrows.
  destruct (forEach processRow rows (resetTables initial)) as [s0|] eqn:H0;
    simpl in Hrows; [|discriminate].
  injection Hrows as <-.
  exists (setLoadErr None (setLoadOnce false s0)). split; [|reflexivity].
  apply loadFromReaderLocked_Some. right. right. exists hd, rows.
  split; [exact Hr|]. split; [reflexivity|].
  rewrite rows_from_initial, H0. reflexivity.
Qed.

(** The loop body reads a record through its first five columns only. *)
Lemma processRow_ext (row row' : list string) (st : state) :
  (row = [] ↔ row' = []) →
  (∀ i, (i < 5)%nat → col row i = col row' i) →
  processRow row st = processRow row' st.
Proof.
  intros Hnil Hcol. unfold processRow.
  destruct row as [|f row], row' as [|f' row']; try reflexivity.
  - discriminate (proj1 Hnil eq_refl).
  - discriminate (proj2 Hnil eq_refl).
  - rewrite !(Hcol 0%nat), !(Hcol 1%nat), !(Hcol 2%nat), !(Hcol 3%nat),
      !(Hcol 4%nat) by lia. reflexivity.
Qed.

(** X9: a record is read through its first five columns: columns after
    the fifth are ignored, and a record of fewer than five columns is read
    as if empty columns followed. *)
Theorem processRow_five_columns (row extra : list string) (k : nat)
    (st : state) :
  row ≠ [] →
  ((5 <= length row)%nat → processRow (row ++ extra) st = processRow row st) ∧
  processRow (row ++ replicate k EmptyString) st = processRow row st.
Proof.
  intros Hrow. split.
  - intros Hlen. apply processRow_ext.
    + split; [by intros [? _]%app_eq_nil|done].
    + intros i Hi. unfold col, pad5. rewrite <- !app_assoc.
      rewrite !lookup_app_l by lia. reflexivity.
  - apply processRow_ext.
    + split; [by intros [? _]%app_eq_nil|done].
    + intros i Hi. unfold col, pad5. rewrite length_app, length_replicate.
      rewrite <- app_assoc, <- replicate_add.
      destruct (decide (i < length row)%nat) as [Hlt|Hge].
      * rewrite !lookup_app_l by lia. reflexivity.
      * rewrite !lookup_app_r by lia.
        destruct (decide (i - length row < 5 - length row)%nat).
        -- rewrite !lookup_replicate_2 by lia. reflexivity.
        -- lia.
Qed.

Lemma forEach_None {A S : Type} (body : A → S → option S) (l : list A)
    (x : A) :
  x ∈ l → (∀ s, body x s = None) → ∀ s, forEach body l s = None.
Proof.
  intros Hin Hx. induction l as [|y l IH]; intros s.
  - by apply not_elem_of_nil in Hin.
  - simpl. apply elem_of_cons in Hin as [<-|Hin].
    + by rewrite Hx.
    + destruct (body y s); simpl; [by apply IH|reflexivity].
Qed.

(** X10: a kept record whose range ends at the largest [int] keeps the
    parse from returning: the loop [for n := start; n <= end; n++] never
    exits (for any amount of fuel), whatever the records before and after
    it. *)
Theorem parse_never_returns_at_maxInt (r : string)
    (hd row : list string) (rows : list (list string)) (st : state) (a : Z)
    (fuel : nat) (e : Entry) (s : state) :
  ReadAll r = inr (hd :: rows) → row ∈ rows →
  keptEntry row = Some (entryOfRow row a maxInt) →
  loadFromReaderLocked r st = None ∧ fillLoop fuel a maxInt e s = None.
Proof.
  intros Hr Hin Hkept.
  assert (Hparse : row ≠ [] ∧ TrimSpace (col row 0) ≠ EmptyString ∧
                   parseDecimalField (TrimSpace (col row 0)) = inr (a, maxInt)).
  { unfold keptEntry in Hkept. destruct row as [|f row]; [discriminate|].
    case_bool_decide as Hid; [discriminate|].
    destruct (parseDecimalField _) as [?|[a' b']] eqn:Hp; [discriminate|].
    by injection Hkept as -> ->. }
  destruct Hparse as (Hrow & Hid & Hp). split.
  - unfold loadFromReaderLocked. rewrite Hr. simpl. rewrite drop_0.
    rewrite (forEach_None processRow rows row Hin); [reflexivity|].
    intros s0. by eapply processRow_maxInt.
  - apply fillLoop_maxInt.
    pose proof (parseDecimalField_range _ _ _ Hp) as (_ & ? & _).
    apply parseDecimalField_inr in Hp
      as [[(_ & _ & Ha) _]|[(_ & p0 & p1 & _ & _ & Ha & _) _]];
      apply Atoi_range in Ha; lia.
Qed.

End Replace.

(** ** The registry on ASCII input *)

Section Registry.
Import AsciiLib.
Context `{GoLib}.

Lemma isDigit_not_space (c : ascii) : isDigit c = true → isSpace c = false.
Proof.
  unfold isDigit, isSpace. intros [Hlo Hhi]%andb_prop.
  apply Z.leb_le in Hlo, Hhi.
  destruct (Z.leb_spec 9 (byteOf c)), (Z.leb_spec (byteOf c) 13),
    (Z.eqb_spec (byteOf c) 32); simpl; try reflexivity; lia.
Qed.

(** Byte-wise trimming keeps the digit a string starts with. *)
Lemma trimSpace_digit (s : string) :
  startsWithDigit s = true → startsWithDigit (trimSpace s) = true.
Proof.
  destruct s as [|c r]; [discriminate|]. simpl. intros Hc.
  pose proof (isDigit_not_space c Hc) as Hsp. unfold trimSpace. simpl.
  rewrite Hsp. destruct (trimRight_head c r Hsp) as [r' ->]. exact Hc.
Qed.

Lemma asciiGo_trimKeepsDigit (embedded : string)
    (files : list (string * string)) :
  trimKeepsDigit (L := asciiGo embedded files).
Proof. intros s. apply trimSpace_digit. Qed.

Lemma asciiGo_trimIdempotent (embedded : string)
    (files : list (string * string)) :
  trimIdempotent (L := asciiGo embedded files).
Proof. intros s. apply trimSpace_idem. Qed.

Lemma takeS_digit (s : string) (i : nat) :
  startsWithDigit s = true → IndexByte s dash = Some i →
  startsWithDigit (takeS i s) = true.
Proof.
  destruct s as [|c r]; [discriminate|]. simpl. intros Hc.
  destruct (isDigit_not_sign c Hc) as [-> _].
  destruct (IndexByte r dash); simpl; [|discriminate].
  by intros [= <-].
Qed.

(** An accepted identifier gives numbers from 0 on. *)
Lemma parseDecimalField_nonneg (id : string) (a b : Z) :
  trimKeepsDigit →
  parseDecimalField id = inr (a, b) → 0 <= a ∧ a <= b ∧ b <= maxInt.
Proof.
  intros Hlaw Hp.
  pose proof (parseDecimalField_range _ _ _ Hp) as (Hab & _ & Hb).
  split; [|done].
  apply parseDecimalField_inr in Hp
    as [[(Hd & _ & Ha) _]|[(Hd & p0 & p1 & Hs & _ & Ha & _) _]].
  - exact (Atoi_digit_nonneg _ _ Hd Ha).
  - assert (Hp0 : startsWithDigit p0 = true).
    { unfold SplitN2 in Hs.
      destruct (IndexByte (TrimSpace id) dash) as [i|] eqn:Hi; [|discriminate].
      injection Hs as <- _. by apply takeS_digit. }
    exact (Atoi_digit_nonneg _ _ (Hlaw p0 Hp0) Ha).
Qed.

Lemma keptEntry_Some (row : list string) (e : Entry) :
  keptEntry row = Some e →
  parseDecimalField (TrimSpace (col row 0))
  = inr (DecimalStart e, DecimalEnd e) ∧
  Keyword e = TrimSpace (col row 1) ∧ Protocol e = TrimSpace (col row 2).
Proof.
  unfold keptEntry. destruct row as [|f row]; [discriminate|].
  case_bool_decide; [discriminate|].
  destruct (parseDecimalField _) as [?|[a b]] eqn:Hp; [discriminate|].
  intros [= <-]. repeat split; reflexivity.
Qed.

(** X11: with a [strings.TrimSpace] that keeps the digit a string starts
    with, in a state the package can reach, whatever the CSV reader gave,
    every entry of the list has [0 <= DecimalStart <= DecimalEnd], below
    the largest [int]; so [LookupByNumber] never finds a negative
    number. *)
Theorem registry_numbers_in_range (st st' : state) (n : Z)
    (p : option Entry) (ok : bool) :
  trimKeepsDigit →
  reachable st →
  LookupByNumber n st = Some ((p, ok), st') →
  (∀ e, e ∈ entries st' →
        0 <= DecimalStart e ∧ DecimalStart e <= DecimalEnd e ∧
        DecimalEnd e < maxInt) ∧
  (ok = true → 0 <= n < maxInt).
Proof.
  intros Hlaw Hreach Hcall.
  assert (Hreach' : reachable st') by (by eapply reach_LookupByNumber).
  assert (Hbounds : ∀ e, e ∈ entries st' →
            0 <= DecimalStart e ∧ DecimalStart e <= DecimalEnd e ∧
            DecimalEnd e < maxInt).
  { intros e He.
    destruct (reachable_built _ Hreach' e He) as (Hmax & row & Hrow).
    apply keptEntry_Some in Hrow as (Hp & _).
    apply (parseDecimalField_nonneg _ _ _ Hlaw) in Hp. lia. }
  split; [exact Hbounds|]. intros ->.
  pose proof (reachable_indexed _ Hreach' n) as Hi.
  apply LookupByNumber_Some in Hcall as (err & _ & Hres).
  destruct err; [discriminate|]. unfold readByNumber in Hres.
  rewrite Hi in Hres.
  destruct (lastOwner n (entries st')) as [e|] eqn:Hlast;
    [|by destruct (byNumber st')].
  apply lastOwner_Some in Hlast as (l1 & l2 & Hl & Hc & _).
  assert (He : e ∈ entries st')
    by (rewrite Hl; apply elem_of_app; right; left).
  apply Hbounds in He. unfold covers in Hc.
  apply andb_prop in Hc as [Hlo Hhi]. apply Z.leb_le in Hlo, Hhi. lia.
Qed.

(** X12: with an idempotent [strings.TrimSpace], in a state the package
    can reach, whatever the CSV reader gave, after an initialisation
    without error, looking up the keyword of an entry of the list finds
    the first entry, in file order, with this keyword up to
    [strings.ToUpper]: the entry itself when no earlier entry has it. *)
Theorem LookupDecimal_own_keyword (st st' : state) (e : Entry)
    (res : Z * bool) :
  trimIdempotent →
  reachable st →
  LookupDecimal (Keyword e) st = Some (res, st') →
  loadErr st' = None →
  e ∈ entries st' → Keyword e ≠ EmptyString →
  ∃ e',
    firstKeyword (ToUpper (Keyword e)) (entries st') = Some e' ∧
    res = (DecimalStart e', true) ∧
    Keyword e' ≠ EmptyString ∧ ToUpper (Keyword e') = ToUpper (Keyword e) ∧
    (∀ l1 l2,
       entries st' = l1 ++ e :: l2 →
       Forall (λ x, ¬ (Keyword x ≠ EmptyString ∧
                       ToUpper (Keyword x) = ToUpper (Keyword e))) l1 →
       e' = e).
Proof.
  intros Hlaw Hreach Hcall Herr Hin Hne.
  assert (Hreach' : reachable st') by (by eapply reach_LookupDecimal).
  destruct (reachable_built _ Hreach' e Hin) as (_ & row & Hrow).
  apply keptEntry_Some in Hrow as (_ & Hkey & _).
  assert (Htrim : TrimSpace (Keyword e) = Keyword e)
    by (rewrite Hkey; apply Hlaw).
  apply LookupDecimal_Some in Hcall as (err & Hload & ->).
  apply ensureLoaded_Some in Hload as (_ & -> & _). rewrite Herr.
  rewrite (readDecimal_named _ _ (reachable_named _ Hreach')).
  rewrite Htrim.
  rewrite bool_decide_eq_false_2 by exact Hne.
  destruct (firstKeyword (ToUpper (Keyword e)) (entries st')) as [e'|] eqn:Hf.
  - exists e'. split; [reflexivity|]. split; [reflexivity|].
    pose proof Hf as Hf'. unfold firstKeyword in Hf'.
    apply head_filter_Some in Hf' as (l1 & l2 & Hl & [Hk1 Hk2] & Hl1).
    split; [exact Hk1|]. split; [exact Hk2|].
    intros m1 m2 Hm Hm1.
    assert (Hfe : firstKeyword (ToUpper (Keyword e)) (entries st') = Some e).
    { unfold firstKeyword. apply head_filter_Some. exists m1, m2.
      split; [exact Hm|]. split; [by split|exact Hm1]. }
    congruence.
  - exfalso. unfold firstKeyword in Hf. apply head_filter_None in Hf.
    rewrite Forall_forall in Hf. by apply (Hf e Hin).
Qed.

(** X13: with an idempotent [strings.TrimSpace], in a state the package
    can reach, whatever the CSV reader gave, after an initialisation
    without error, looking up the long name of an entry of the list, when
    no entry's keyword is that long name up to [strings.ToUpper], finds
    the first entry, in file order, whose long name normalises to the same
    string: the entry itself when no earlier entry has it. *)
Theorem LookupDecimal_own_long_name (st st' : state) (e : Entry)
    (res : Z * bool) :
  trimIdempotent →
  reachable st →
  LookupDecimal (Protocol e) st = Some (res, st') →
  loadErr st' = None →
  e ∈ entries st' → Protocol e ≠ EmptyString →
  firstKeyword (ToUpper (Protocol e)) (entries st') = None →
  ∃ e',
    firstProtocol (normalizeProtoName (Protocol e)) (entries st') = Some e' ∧
    res = (DecimalStart e', true) ∧
    Protocol e' ≠ EmptyString ∧
    normalizeProtoName (Protocol e') = normalizeProtoName (Protocol e) ∧
    (∀ l1 l2,
       entries st' = l1 ++ e :: l2 →
       Forall (λ x, ¬ (Protocol x ≠ EmptyString ∧
                       normalizeProtoName (Protocol x)
                       = normalizeProtoName (Protocol e))) l1 →
       e' = e).
Proof.
  intros Hlaw Hreach Hcall Herr Hin Hne Hkw.
  assert (Hreach' : reachable st') by (by eapply reach_LookupDecimal).
  destruct (reachable_built _ Hreach' e Hin) as (_ & row & Hrow).
  apply keptEntry_Some in Hrow as (_ & _ & Hname).
  assert (Htrim : TrimSpace (Protocol e) = Protocol e)
    by (rewrite Hname; apply Hlaw).
  apply LookupDecimal_Some in Hcall as (err & Hload & ->).
  apply ensureLoaded_Some in Hload as (_ & -> & _). rewrite Herr.
  rewrite (readDecimal_named _ _ (reachable_named _ Hreach')).
  rewrite Htrim.
  rewrite bool_decide_eq_false_2 by exact Hne. rewrite Hkw.
  destruct (firstProtocol _ (entries st')) as [e'|] eqn:Hf.
  - exists e'. split; [reflexivity|]. split; [reflexivity|].
    pose proof Hf as Hf'. unfold firstProtocol in Hf'.
    apply head_filter_Some in Hf' as (l1 & l2 & Hl & [Hk1 Hk2] & Hl1).
    split; [exact Hk1|]. split; [exact Hk2|].
    intros m1 m2 Hm Hm1.
    assert (Hfe : firstProtocol (normalizeProtoName (Protocol e))
                    (entries st') = Some e).
    { unfold firstProtocol. apply head_filter_Some. exists m1, m2.
      split; [exact Hm|]. split; [by split|exact Hm1]. }
    congruence.
  - exfalso. unfold firstProtocol in Hf. apply head_filter_None in Hf.
    rewrite Forall_forall in Hf. by apply (Hf e Hin).
Qed.

End Registry.

(** ** Names of a number *)

Section NamesOfNumber.
Context `{GoLib}.

(** With a by-number index that agrees with the entry list, the index is
    read as the list is searched. *)
Lemma readByNumber_indexed (st : state) (n : Z) :
  indexed st →
  readByNumber st n =
  match lastOwner n (entries st) with
  | Some e => (Some e, true)
  | None => (None, false)
  end.
Proof.
  intros Hi. unfold readByNumber. rewrite (Hi n).
  destruct (lastOwner n (entries st)) eqn:Hl; [|by destruct (byNumber st)].
  destruct (byNumber st) eqn:Hb; [reflexivity|].
  specialize (Hi n). rewrite Hb, Hl in Hi. discriminate.
Qed.

(** X14: in a state the package can reach, a string that [LookupKeyword(n)]
    reports as found is not empty and is the [Keyword] of the last entry
    of the list whose range holds [n]; a string reported as not found is
    empty.  [LookupProtocolName(n)] does the same with [Protocol]. *)
Theorem names_of_number_sound (st st' : state) (n : Z) (s : string)
    (found : bool) :
  reachable st →
  (LookupKeyword n st = Some ((s, found), st') →
   if found
   then s ≠ EmptyString ∧
        ∃ e, lastOwner n (entries st') = Some e ∧ s = Keyword e
   else s = EmptyString) ∧
  (LookupProtocolName n st = Some ((s, found), st') →
   if found
   then s ≠ EmptyString ∧
        ∃ e, lastOwner n (entries st') = Some e ∧ s = Protocol e
   else s = EmptyString).
Proof.
  intros Hreach. split; intros Hcall.
  - assert (Hi : indexed st').
    { apply reachable_indexed. by eapply reach_LookupKeyword. }
    unfold LookupKeyword, LookupByNumber in Hcall.
    destruct (ensureLoaded st) as [[[err|] s1]|]; simpl in Hcall;
      [by injection Hcall as <- <- _| |discriminate].
    destruct (readByNumber s1 n) as [[e|] [|]] eqn:Hread; simpl in Hcall;
      try (by injection Hcall as <- <- _).
    case_bool_decide as Hk; injection Hcall as <- <- <-; [done|].
    split; [done|]. exists e. split; [|done].
    rewrite (readByNumber_indexed _ _ Hi) in Hread.
    by destruct (lastOwner n (entries s1)); injection Hread as <-.
  - assert (Hi : indexed st').
    { apply reachable_indexed. by eapply reach_LookupProtocolName. }
    unfold LookupProtocolName, LookupByNumber in Hcall.
    destruct (ensureLoaded st) as [[[err|] s1]|]; simpl in Hcall;
      [by injection Hcall as <- <- _| |discriminate].
    destruct (readByNumber s1 n) as [[e|] [|]] eqn:Hread; simpl in Hcall;
      try (by injection Hcall as <- <- _).
    case_bool_decide as Hk; injection Hcall as <- <- <-; [done|].
    split; [done|]. exists e. split; [|done].
    rewrite (readByNumber_indexed _ _ Hi) in Hread.
    by destruct (lastOwner n (entries s1)); injection Hread as <-.
Qed.

End NamesOfNumber.

(** ** The normalised long name on ASCII input *)

Section AsciiNormalize.
Import AsciiLib.

Lemma spaceFree_of_list (l : list ascii) :
  Forall (λ c, isSpace c = false) l →
  spaceFree (string_of_list_ascii l) = true.
Proof.
  induction 1 as [|c l Hc _ IH]; simpl; [reflexivity|]. by rewrite Hc, IH.
Qed.

Lemma fieldsFrom_words (cur : list ascii) (s : string) :
  Forall (λ c, isSpace c = false) cur → Forall word (fieldsFrom cur s).
Proof.
  revert cur. induction s as [|c r IH]; intros cur Hcur; simpl.
  - destruct cur as [|x cur]; [constructor|]. constructor; [|constructor].
    split.
    + simpl. destruct (rev cur); discriminate.
    + apply spaceFree_of_list. by apply Forall_rev.
  - destruct (isSpace c) eqn:Hc.
    + destruct cur as [|x cur]; [by apply IH|]. constructor; [|by apply IH].
      split.
      * simpl. destruct (rev cur); discriminate.
      * apply spaceFree_of_list. by apply Forall_rev.
    + apply IH. by constructor.
Qed.

(** Reading a word moves it to the run being read. *)
Lemma fieldsFrom_word (cur : list ascii) (w rest : string) :
  spaceFree w = true →
  fieldsFrom cur (w +:+ rest)
  = fieldsFrom (rev (list_ascii_of_string w) ++ cur) rest.
Proof.
  revert cur. induction w as [|c w IH]; intros cur Hw; [reflexivity|].
  simpl in Hw. apply andb_prop in Hw as [Hc Hw].
  apply negb_true_iff in Hc.
  change (String c w +:+ rest) with (String c (w +:+ rest)). simpl.
  rewrite Hc, (IH _ Hw). by rewrite <- app_assoc.
Qed.

Lemma append_empty (w : string) : w +:+ EmptyString = w.
Proof.
  induction w as [|c w IH]; [reflexivity|].
  change (String c (w +:+ EmptyString) = String c w). by rewrite IH.
Qed.

Lemma fields_Join (l : list string) :
  Forall word l → fields (Join l " ") = l.
Proof.
  unfold fields. induction 1 as [|w l [Hne Hw] Hl IH]; [reflexivity|].
  assert (Hflush : string_of_list_ascii
                     (rev (rev (list_ascii_of_string w) ++ [])) = w).
  { by rewrite app_nil_r, rev_involutive, string_of_list_ascii_of_string. }
  assert (Hcur : rev (list_ascii_of_string w) ++ [] ≠ []).
  { destruct w as [|c w]; [done|]. simpl. rewrite app_nil_r.
    destruct (rev (list_ascii_of_string w)); discriminate. }
  destruct l as [|w' l].
  - simpl. rewrite <- (append_empty w) at 1.
    rewrite (fieldsFrom_word [] w EmptyString Hw). simpl.
    destruct (rev (list_ascii_of_string w) ++ []) eqn:Hr; [done|].
    by rewrite Hflush.
  - change (Join (w :: w' :: l) " ")
      with (w +:+ String " " (Join (w' :: l) " ")).
    rewrite (fieldsFrom_word [] w _ Hw). simpl.
    destruct (rev (list_ascii_of_string w) ++ []) eqn:Hr; [done|].
    rewrite Hflush. f_equal. exact IH.
Qed.

Lemma lowerByte_idem (c : ascii) : lowerByte (lowerByte c) = lowerByte c.
Proof. destruct c as [[] [] [] [] [] [] [] []]; reflexivity. Qed.

Lemma toLower_of_list (l : list ascii) :
  Forall (λ c, lowerByte c = c) l →
  toLower (string_of_list_ascii l) = string_of_list_ascii l.
Proof.
  induction 1 as [|c l Hc _ IH]; [reflexivity|].
  unfold toLower in *. simpl. by rewrite Hc, IH.
Qed.

Lemma fieldsFrom_lowered (cur : list ascii) (s : string) :
  Forall (λ c, lowerByte c = c) cur →
  Forall (λ w, toLower w = w) (fieldsFrom cur (toLower s)).
Proof.
  revert cur. induction s as [|c r IH]; intros cur Hcur.
  - simpl. destruct cur as [|x cur]; [constructor|].
    constructor; [|constructor]. apply toLower_of_list. by apply Forall_rev.
  - change (toLower (String c r)) with (String (lowerByte c) (toLower r)).
    simpl. destruct (isSpace (lowerByte c)).
    + destruct cur as [|x cur]; [by apply IH|]. constructor; [|by apply IH].
      apply toLower_of_list. by apply Forall_rev.
    + apply IH. constructor; [apply lowerByte_idem|exact Hcur].
Qed.

Lemma toLower_append (a b : string) :
  toLower (a +:+ b) = toLower a +:+ toLower b.
Proof.
  induction a as [|c a IH]; [reflexivity|].
  change (String (lowerByte c) (toLower (a +:+ b))
          = String (lowerByte c) (toLower a +:+ toLower b)).
  by rewrite IH.
Qed.

Lemma toLower_Join (l : list string) :
  Forall (λ w, toLower w = w) l → toLower (Join l " ") = Join l " ".
Proof.
  induction 1 as [|w l Hw Hl IH]; [reflexivity|].
  destruct l as [|w' l]; [exact Hw|].
  change (Join (w :: w' :: l) " ") with (w +:+ " " +:+ Join (w' :: l) " ").
  by rewrite !toLower_append, Hw, IH.
Qed.

Lemma trimRight_word (a w : string) :
  word w → trimRight (a +:+ w) = a +:+ w.
Proof.
  intros [Hne Hw]. induction a as [|c a IH].
  - change (trimRight w = w). clear Hne.
    induction w as [|c w IH]; [reflexivity|].
    simpl in Hw. apply andb_prop in Hw as [Hc Hw].
    apply negb_true_iff in Hc. simpl. rewrite (IH Hw), Hc. by destruct w.
  - change (trimRight (String c (a +:+ w)) = String c (a +:+ w)).
    simpl. rewrite IH. destruct (a +:+ w) eqn:Haw; [|reflexivity].
    destruct a; [|discriminate]. by destruct Hne.
Qed.

Lemma append_assoc (a b c : string) : (a +:+ b) +:+ c = a +:+ b +:+ c.
Proof.
  induction a as [|x a IH]; [reflexivity|].
  change (String x ((a +:+ b) +:+ c) = String x (a +:+ b +:+ c)).
  by rewrite IH.
Qed.

Lemma Join_ends_with_word (w : string) (l : list string) :
  Forall word (w :: l) → ∃ a w', word w' ∧ Join (w :: l) " " = a +:+ w'.
Proof.
  revert w. induction l as [|x l IH]; intros w Hl.
  - exists EmptyString, w. split; [by apply Forall_inv in Hl|reflexivity].
  - apply Forall_cons in Hl as [_ Hl].
    destruct (IH x Hl) as (a & w' & Hw' & Ha).
    exists (w +:+ " " +:+ a), w'. split; [exact Hw'|].
    change (Join (w :: x :: l) " ") with (w +:+ " " +:+ Join (x :: l) " ").
    rewrite Ha. by rewrite !append_assoc.
Qed.

Lemma trimSpace_Join (l : list string) :
  Forall word l → trimSpace (Join l " ") = Join l " ".
Proof.
  intros Hl. destruct l as [|w l]; [reflexivity|]. unfold trimSpace.
  assert (Hleft : trimLeft (Join (w :: l) " ") = Join (w :: l) " ").
  { pose proof (Forall_inv Hl) as [Hne Hw].
    destruct w as [|c w]; [done|]. simpl in Hw.
    apply andb_prop in Hw as [Hc _]. apply negb_true_iff in Hc.
    destruct l as [|x l]; simpl; by rewrite Hc. }
  rewrite Hleft. destruct (Join_ends_with_word w l Hl) as (a & w' & Hw' & ->).
  by apply trimRight_word.
Qed.

Lemma noUpper_lowerByte (c : ascii) :
  noUpper (String (lowerByte c) EmptyString) = true.
Proof. destruct c as [[] [] [] [] [] [] [] []]; reflexivity. Qed.

Lemma noUpper_of_list (l : list ascii) :
  Forall (λ c, noUpper (String c EmptyString) = true) l →
  noUpper (string_of_list_ascii l) = true.
Proof.
  induction 1 as [|c l Hc _ IH]; [reflexivity|].
  simpl in *. rewrite IH. exact Hc.
Qed.

(** The fields of a string in lower case have no upper-case letter. *)
Lemma fieldsFrom_noUpper (cur : list ascii) (s : string) :
  Forall (λ c, noUpper (String c EmptyString) = true) cur →
  Forall (λ w, noUpper w = true) (fieldsFrom cur (toLower s)).
Proof.
  revert cur. induction s as [|c r IH]; intros cur Hcur.
  - simpl. destruct cur as [|x cur]; [constructor|].
    constructor; [|constructor]. apply noUpper_of_list. by apply Forall_rev.
  - change (toLower (String c r)) with (String (lowerByte c) (toLower r)).
    simpl. destruct (isSpace (lowerByte c)).
    + destruct cur as [|x cur]; [by apply IH|]. constructor; [|by apply IH].
      apply noUpper_of_list. by apply Forall_rev.
    + apply IH. constructor; [apply noUpper_lowerByte|exact Hcur].
Qed.

Lemma isASCII_of_list (l : list ascii) :
  Forall (λ c, isASCIIByte c = true) l →
  isASCII (string_of_list_ascii l) = true.
Proof.
  induction 1 as [|c l Hc _ IH]; [reflexivity|]. simpl. by rewrite Hc, IH.
Qed.

Lemma isASCII_fieldsFrom (cur : list ascii) (s : string) :
  Forall (λ c, isASCIIByte c = true) cur → isASCII s = true →
  Forall (λ w, isASCII w = true) (fieldsFrom cur s).
Proof.
  revert cur. induction s as [|c r IH]; intros cur Hcur Hs.
  - simpl. destruct cur as [|x cur]; [constructor|].
    constructor; [|constructor]. apply isASCII_of_list. by apply Forall_rev.
  - simpl in Hs. apply andb_prop in Hs as [Hc Hr]. simpl.
    destruct (isSpace c).
    + destruct cur as [|x cur]; [by apply IH|].
      constructor; [|by apply IH].
      apply isASCII_of_list. by apply Forall_rev.
    + apply IH; [by constructor|exact Hr].
Qed.

Lemma isASCII_append (a b : string) :
  isASCII a = true → isASCII b = true → isASCII (a +:+ b) = true.
Proof.
  intros Ha Hb. induction a as [|c a IH]; [exact Hb|].
  simpl in Ha. apply andb_prop in Ha as [Hc Ha].
  change (isASCIIByte c && isASCII (a +:+ b) = true).
  by rewrite Hc, (IH Ha).
Qed.

Lemma isASCII_Join (l : list string) :
  Forall (λ w, isASCII w = true) l → isASCII (Join l " ") = true.
Proof.
  induction 1 as [|w l Hw Hl IH]; [reflexivity|].
  destruct l as [|w' l]; [exact Hw|].
  change (Join (w :: w' :: l) " ") with (w +:+ " " +:+ Join (w' :: l) " ").
  apply isASCII_append; [exact Hw|]. by apply isASCII_append.
Qed.

End AsciiNormalize.

Section Normalize.
Import AsciiLib.
Context `{GoLib}.

(** X15: with a package [strings] that works byte by byte on ASCII
    strings, the normal form of an ASCII name is a list of words, none
    empty, none with a white-space byte or a letter from [A] to [Z],
    joined by single spaces; and [normalizeProtoName] leaves a normal form
    as it is, so the key under which a long name is stored is found by
    looking up the key itself. *)
Theorem normalizeProtoName_idempotent (s : string) :
  asciiFaithful → isASCII s = true →
  normalizeProtoName (normalizeProtoName s) = normalizeProtoName s ∧
  ∃ l, normalizeProtoName s = Join l " " ∧
       Forall word l ∧ Forall (λ w, noUpper w = true) l.
Proof.
  intros Hf Hs. set (l := fields (toLower (trimSpace s))).
  assert (Hnorm : normalizeProtoName s = Join l " ")
    by (by apply faithful_normalize).
  assert (Hwords : Forall word l) by (apply fieldsFrom_words; constructor).
  assert (Hlow : Forall (λ w, toLower w = w) l)
    by (apply fieldsFrom_lowered; constructor).
  assert (Hno : Forall (λ w, noUpper w = true) l)
    by (apply fieldsFrom_noUpper; constructor).
  assert (Hascii : isASCII (Join l " ") = true).
  { apply isASCII_Join, isASCII_fieldsFrom; [constructor|].
    rewrite isASCII_toLower. by apply isASCII_trimSpace. }
  split; [|by exists l].
  rewrite Hnorm, (faithful_normalize _ Hf Hascii).
  rewrite (trimSpace_Join _ Hwords), (toLower_Join _ Hlow).
  by rewrite (fields_Join _ Hwords).
Qed.

End Normalize.

(** ** The further properties at the sample sources *)

Module MoreWitnesses.
Import Samples.

Lemma parse_entries_in_file_order_witness :
  ReadAll (GoLib := sampleGo) registry = inr registryRecords ∧
  loadFromReaderLocked (L := sampleGo) registry initial
  = Some (None, parsedRegistry) ∧
  entries parsedRegistry
  = omap (keptEntry (L := sampleGo)) (drop 1 registryRecords).
Proof.
  assert (Hread : ReadAll (GoLib := sampleGo) registry = inr registryRecords)
    by (vm_compute; reflexivity).
  assert (Hload : loadFromReaderLocked (L := sampleGo) registry initial
                  = Some (None, parsedRegistry)) by (vm_compute; reflexivity).
  split; [exact Hread|]. split; [exact Hload|].
  exact (parse_entries_in_file_order (H := sampleGo) registry registryRecords
           initial parsedRegistry Hread Hload).
Defined.

Lemma byKeyword_first_row_wins_witness :
  loadFromReaderLocked (L := sampleGo) duplicates initial
  = Some (None, parsedDuplicates) ∧
  entries parsedDuplicates = [tcp; tcpAgain] ∧
  mapGet (byKeyword parsedDuplicates) "TCP"
  = firstKeyword (L := sampleGo) "TCP" (entries parsedDuplicates) ∧
  mapGet (byKeyword parsedDuplicates) "TCP" = Some tcp.
Proof.
  assert (Hload : loadFromReaderLocked (L := sampleGo) duplicates initial
                  = Some (None, parsedDuplicates)) by (vm_compute; reflexivity).
  assert (Hl : entries parsedDuplicates = [] ++ tcp :: [tcpAgain])
    by (vm_compute; reflexivity).
  split; [exact Hload|]. split; [exact Hl|].
  destruct (byKeyword_first_row_wins (H := sampleGo) duplicates initial
              parsedDuplicates "TCP" Hload) as (Hfirst & Hown & _).
  split; [exact Hfirst|].
  apply (Hown [] tcp [tcpAgain] Hl); [discriminate|reflexivity|constructor].
Defined.

Lemma byProtocolName_first_row_wins_witness :
  loadFromReaderLocked (L := sampleGo) duplicates initial
  = Some (None, parsedDuplicates) ∧
  mapGet (byProtocolName parsedDuplicates) "transmission control"
  = firstProtocol (L := sampleGo) "transmission control"
      (entries parsedDuplicates) ∧
  mapGet (byProtocolName parsedDuplicates) "transmission control" = Some tcp.
Proof.
  assert (Hload : loadFromReaderLocked (L := sampleGo) duplicates initial
                  = Some (None, parsedDuplicates)) by (vm_compute; reflexivity).
  assert (Hl : entries parsedDuplicates = [] ++ tcp :: [tcpAgain])
    by (vm_compute; reflexivity).
  split; [exact Hload|].
  destruct (byProtocolName_first_row_wins (H := sampleGo) duplicates initial
              parsedDuplicates "transmission control" Hload)
    as (Hfirst & Hown & _).
  split; [exact Hfirst|].
  apply (Hown [] tcp [tcpAgain] Hl);
    [discriminate|vm_compute; reflexivity|constructor].
Defined.

Lemma queries_repeat_witness :
  ensureLoaded (L := sampleGo) initial = Some (None, loaded) ∧
  ensureLoaded (L := sampleGo) loaded = Some (None, loaded) ∧
  (∃ r, LookupByNumber (L := sampleGo) 6 initial = Some (r, loaded) ∧
        LookupByNumber (L := sampleGo) 6 loaded = Some (r, loaded)) ∧
  (∃ r, LookupDecimal (L := sampleGo) "tcp" initial = Some (r, loaded) ∧
        LookupDecimal (L := sampleGo) "tcp" loaded = Some (r, loaded)) ∧
  (∃ r, LookupKeyword (L := sampleGo) 6 initial = Some (r, loaded) ∧
        LookupKeyword (L := sampleGo) 6 loaded = Some (r, loaded)) ∧
  (∃ r, LookupProtocolName (L := sampleGo) 6 initial = Some (r, loaded) ∧
        LookupProtocolName (L := sampleGo) 6 loaded = Some (r, loaded)).
Proof.
  assert (Hload : ensureLoaded (L := sampleGo) initial = Some (None, loaded))
    by (vm_compute; reflexivity).
  split; [exact Hload|].
  exact (queries_repeat (H := sampleGo) initial loaded None 6 "tcp" Hload).
Defined.

Lemma failed_initialisation_is_cached_witness :
  ensureLoaded (L := emptyGo) overridden = Some (Some ErrEmbeddedEmpty, failed) ∧
  length (entries failed) = 1%nat ∧
  (loadErr failed = Some ErrEmbeddedEmpty ∧
   LookupByNumber (L := emptyGo) 17 failed = Some ((None, false), failed) ∧
   LookupDecimal (L := emptyGo) "UDP" failed = Some ((0, false), failed) ∧
   LookupKeyword (L := emptyGo) 17 failed
   = Some ((EmptyString, false), failed) ∧
   LookupProtocolName (L := emptyGo) 17 failed
   = Some ((EmptyString, false), failed)).
Proof.
  assert (Hload : ensureLoaded (L := emptyGo) overridden
                  = Some (Some ErrEmbeddedEmpty, failed))
    by (vm_compute; reflexivity).
  split; [exact Hload|]. split; [vm_compute; reflexivity|].
  exact (failed_initialisation_is_cached (H := emptyGo) overridden failed
           ErrEmbeddedEmpty 17 "UDP" Hload).
Defined.

Lemma LookupByNumber_sound_witness :
  reachable (L := sampleGo) initial ∧
  LookupByNumber (L := sampleGo) 150 initial
  = Some ((Some unassigned, true), loaded) ∧
  ((true = true →
    ∃ e, Some unassigned = Some e ∧ e ∈ entries loaded ∧ covers 150 e = true) ∧
   (true = false ↔ Some unassigned = None) ∧
   (Forall (λ e, covers 150 e = false) (entries loaded) → true = false)).
Proof.
  assert (Hcall : LookupByNumber (L := sampleGo) 150 initial
                  = Some ((Some unassigned, true), loaded))
    by (vm_compute; reflexivity).
  split; [apply reach_initial|]. split; [exact Hcall|].
  exact (LookupByNumber_sound (H := sampleGo) initial loaded 150
           (Some unassigned) true (reach_initial (L := sampleGo)) Hcall).
Defined.

Lemma LookupDecimal_from_entries_witness :
  reachable (L := sampleGo) initial ∧
  LookupDecimal (L := sampleGo) " icmp " initial = Some ((1, true), loaded) ∧
  loadErr loaded = None ∧
  (1, true) =
  (if bool_decide (TrimSpace (GoLib := sampleGo) " icmp " = EmptyString)
   then (0, false)
   else match firstKeyword (L := sampleGo)
                (ToUpper (GoLib := sampleGo)
                   (TrimSpace (GoLib := sampleGo) " icmp "))
                (entries loaded) with
        | Some e => (DecimalStart e, true)
        | None =>
            match firstProtocol (L := sampleGo)
                    (normalizeProtoName (L := sampleGo)
                       (TrimSpace (GoLib := sampleGo) " icmp "))
                    (entries loaded) with
            | Some e => (DecimalStart e, true)
            | None => (0, false)
            end
        end).
Proof.
  assert (Hcall : LookupDecimal (L := sampleGo) " icmp " initial
                  = Some ((1, true), loaded)) by (vm_compute; reflexivity).
  assert (Herr : loadErr loaded = None) by (vm_compute; reflexivity).
  split; [apply reach_initial|]. split; [exact Hcall|]. split; [exact Herr|].
  exact (LookupDecimal_from_entries (H := sampleGo) initial loaded " icmp "
           (1, true) (reach_initial (L := sampleGo)) Hcall Herr).
Defined.

Lemma override_replaces_tables_witness :
  LoadFromReader (L := sampleGo) udpOnly loaded = Some (None, udpLoaded) ∧
  length (entries loaded) = 5%nat ∧
  ∃ s2, LoadFromReader (L := sampleGo) udpOnly initial = Some (None, s2) ∧
        tables s2 = tables udpLoaded.
Proof.
  assert (Hload : LoadFromReader (L := sampleGo) udpOnly loaded
                  = Some (None, udpLoaded)) by (vm_compute; reflexivity).
  split; [exact Hload|]. split; [vm_compute; reflexivity|].
  exact (override_replaces_tables (H := sampleGo) udpOnly loaded initial
           udpLoaded Hload).
Defined.

Lemma processRow_five_columns_witness :
  ["6"; "TCP"; "Transmission Control"; ""; "[RFC9293]"] ≠ ([] : list string) ∧
  (5 <= length ["6"; "TCP"; "Transmission Control"; ""; "[RFC9293]"])%nat ∧
  processRow (L := sampleGo)
    (["6"; "TCP"; "Transmission Control"; ""; "[RFC9293]"] ++ ["x"; "y"])
    (resetTables initial)
  = processRow (L := sampleGo)
      ["6"; "TCP"; "Transmission Control"; ""; "[RFC9293]"]
      (resetTables initial) ∧
  ["6"; "TCP"] ≠ ([] : list string) ∧
  processRow (L := sampleGo) (["6"; "TCP"] ++ replicate 2 EmptyString)
    (resetTables initial)
  = processRow (L := sampleGo) ["6"; "TCP"] (resetTables initial).
Proof.
  assert (Hfull : ["6"; "TCP"; "Transmission Control"; ""; "[RFC9293]"]
                  ≠ ([] : list string)) by discriminate.
  assert (Hlen : (5 <= length ["6"; "TCP"; "Transmission Control"; "";
                                "[RFC9293]"])%nat) by (simpl; lia).
  assert (Hshort : ["6"; "TCP"] ≠ ([] : list string)) by discriminate.
  split; [exact Hfull|]. split; [exact Hlen|]. split.
  - exact (proj1 (processRow_five_columns (H := sampleGo)
                    ["6"; "TCP"; "Transmission Control"; ""; "[RFC9293]"]
                    ["x"; "y"] 0 (resetTables initial) Hfull) Hlen).
  - split; [exact Hshort|].
    exact (proj2 (processRow_five_columns (H := sampleGo) ["6"; "TCP"] []
                    2 (resetTables initial) Hshort)).
Defined.

Lemma parse_never_returns_at_maxInt_witness :
  ReadAll (GoLib := sampleGo) atMaxInt
  = inr (Split header comma
         :: [["1"; "A"; "Alpha"];
             ["5-9223372036854775807"; "BIG"; "Big range"];
             ["2"; "B"; "Beta"]]) ∧
  keptEntry (L := sampleGo) ["5-9223372036854775807"; "BIG"; "Big range"]
  = Some (entryOfRow (L := sampleGo)
            ["5-9223372036854775807"; "BIG"; "Big range"] 5 maxInt) ∧
  (loadFromReaderLocked (L := sampleGo) atMaxInt initial = None ∧
   fillLoop 1000 5 maxInt tcp initial = None).
Proof.
  assert (Hread : ReadAll (GoLib := sampleGo) atMaxInt
    = inr (Split header comma
           :: [["1"; "A"; "Alpha"];
               ["5-9223372036854775807"; "BIG"; "Big range"];
               ["2"; "B"; "Beta"]])) by (vm_compute; reflexivity).
  assert (Hkept : keptEntry (L := sampleGo)
                    ["5-9223372036854775807"; "BIG"; "Big range"]
    = Some (entryOfRow (L := sampleGo)
              ["5-9223372036854775807"; "BIG"; "Big range"] 5 maxInt))
    by (vm_compute; reflexivity).
  split; [exact Hread|]. split; [exact Hkept|].
  refine (parse_never_returns_at_maxInt (H := sampleGo) atMaxInt _ _ _
            initial 5 1000 tcp initial Hread _ Hkept).
  right. left.
Defined.

Lemma registry_numbers_in_range_witness :
  trimKeepsDigit (L := sampleGo) ∧
  reachable (L := sampleGo) initial ∧
  LookupByNumber (L := sampleGo) 150 initial
  = Some ((Some unassigned, true), loaded) ∧
  ((∀ e, e ∈ entries loaded →
         0 <= DecimalStart e ∧ DecimalStart e <= DecimalEnd e ∧
         DecimalEnd e < maxInt) ∧
   (true = true → 0 <= 150 < maxInt)).
Proof.
  assert (Hlaw : trimKeepsDigit (L := sampleGo))
    by apply asciiGo_trimKeepsDigit.
  assert (Hcall : LookupByNumber (L := sampleGo) 150 initial
                  = Some ((Some unassigned, true), loaded))
    by (vm_compute; reflexivity).
  split; [exact Hlaw|]. split; [apply reach_initial|]. split; [exact Hcall|].
  exact (registry_numbers_in_range (H := sampleGo) initial loaded 150
           (Some unassigned) true Hlaw (reach_initial (L := sampleGo))
           Hcall).
Defined.

Lemma LookupDecimal_own_keyword_witness :
  trimIdempotent (L := sampleGo) ∧
  reachable (L := sampleGo) initial ∧
  LookupDecimal (L := sampleGo) (Keyword tcp) initial
  = Some ((6, true), loaded) ∧
  loadErr loaded = None ∧ tcp ∈ entries loaded ∧
  Keyword tcp ≠ EmptyString ∧
  ∃ e',
    firstKeyword (L := sampleGo)
      (ToUpper (GoLib := sampleGo) (Keyword tcp)) (entries loaded)
    = Some e' ∧
    (6, true) = (DecimalStart e', true) ∧
    Keyword e' ≠ EmptyString ∧
    ToUpper (GoLib := sampleGo) (Keyword e')
    = ToUpper (GoLib := sampleGo) (Keyword tcp) ∧
    (∀ l1 l2,
       entries loaded = l1 ++ tcp :: l2 →
       Forall (λ x, ¬ (Keyword x ≠ EmptyString ∧
                       ToUpper (GoLib := sampleGo) (Keyword x)
                       = ToUpper (GoLib := sampleGo) (Keyword tcp))) l1 →
       e' = tcp).
Proof.
  assert (Hlaw : trimIdempotent (L := sampleGo))
    by apply asciiGo_trimIdempotent.
  assert (Hcall : LookupDecimal (L := sampleGo) (Keyword tcp) initial
                  = Some ((6, true), loaded))
    by (vm_compute; reflexivity).
  assert (Herr : loadErr loaded = None) by (vm_compute; reflexivity).
  assert (Hin : tcp ∈ entries loaded) by (vm_compute; repeat constructor).
  assert (Hne : Keyword tcp ≠ EmptyString) by discriminate.
  split; [exact Hlaw|]. split; [apply reach_initial|].
  do 4 (split; [assumption|]).
  exact (LookupDecimal_own_keyword (H := sampleGo) initial loaded tcp
           (6, true) Hlaw (reach_initial (L := sampleGo)) Hcall Herr Hin
           Hne).
Defined.

Lemma LookupDecimal_own_long_name_witness :
  trimIdempotent (L := sampleGo) ∧
  reachable (L := sampleGo) initial ∧
  LookupDecimal (L := sampleGo) (Protocol unassigned) initial
  = Some ((148, true), loaded) ∧
  loadErr loaded = None ∧ unassigned ∈ entries loaded ∧
  Protocol unassigned ≠ EmptyString ∧
  firstKeyword (L := sampleGo)
    (ToUpper (GoLib := sampleGo) (Protocol unassigned)) (entries loaded)
  = None ∧
  ∃ e',
    firstProtocol (L := sampleGo)
      (normalizeProtoName (L := sampleGo) (Protocol unassigned))
      (entries loaded) = Some e' ∧
    (148, true) = (DecimalStart e', true) ∧
    Protocol e' ≠ EmptyString ∧
    normalizeProtoName (L := sampleGo) (Protocol e')
    = normalizeProtoName (L := sampleGo) (Protocol unassigned) ∧
    (∀ l1 l2,
       entries loaded = l1 ++ unassigned :: l2 →
       Forall (λ x, ¬ (Protocol x ≠ EmptyString ∧
                       normalizeProtoName (L := sampleGo) (Protocol x)
                       = normalizeProtoName (L := sampleGo)
                           (Protocol unassigned))) l1 →
       e' = unassigned).
Proof.
  assert (Hlaw : trimIdempotent (L := sampleGo))
    by apply asciiGo_trimIdempotent.
  assert (Hcall : LookupDecimal (L := sampleGo) (Protocol unassigned) initial
                  = Some ((148, true), loaded)) by (vm_compute; reflexivity).
  assert (Herr : loadErr loaded = None) by (vm_compute; reflexivity).
  assert (Hin : unassigned ∈ entries loaded)
    by (vm_compute; repeat constructor).
  assert (Hne : Protocol unassigned ≠ EmptyString) by discriminate.
  assert (Hkw : firstKeyword (L := sampleGo)
                  (ToUpper (GoLib := sampleGo) (Protocol unassigned))
                  (entries loaded) = None) by (vm_compute; reflexivity).
  split; [exact Hlaw|]. split; [apply reach_initial|].
  do 5 (split; [assumption|]).
  exact (LookupDecimal_own_long_name (H := sampleGo) initial loaded
           unassigned (148, true) Hlaw (reach_initial (L := sampleGo)) Hcall
           Herr Hin Hne Hkw).
Defined.

Lemma names_of_number_sound_witness :
  reachable (L := sampleGo) initial ∧
  LookupKeyword (L := sampleGo) 6 initial = Some (("TCP"%string, true), loaded) ∧
  ("TCP"%string ≠ EmptyString ∧
   ∃ e, lastOwner 6 (entries loaded) = Some e ∧ "TCP"%string = Keyword e) ∧
  LookupProtocolName (L := sampleGo) 255 initial
  = Some ((EmptyString, false), loaded) ∧
  EmptyString = EmptyString.
Proof.
  assert (Hkw : LookupKeyword (L := sampleGo) 6 initial
                = Some (("TCP"%string, true), loaded))
    by (vm_compute; reflexivity).
  assert (Hpn : LookupProtocolName (L := sampleGo) 255 initial
                = Some ((EmptyString, false), loaded))
    by (vm_compute; reflexivity).
  split; [apply reach_initial|]. split; [exact Hkw|]. split.
  - exact (proj1 (names_of_number_sound (H := sampleGo) initial loaded 6
                    "TCP" true (reach_initial (L := sampleGo))) Hkw).
  - split; [exact Hpn|].
    exact (proj2 (names_of_number_sound (H := sampleGo) initial loaded 255
                    EmptyString false (reach_initial (L := sampleGo))) Hpn).
Defined.

Lemma normalizeProtoName_idempotent_witness :
  asciiFaithful (L := sampleGo) ∧
  AsciiLib.isASCII (String tab "Transmission  " +:+ tabbed) = true ∧
  normalizeProtoName (L := sampleGo) (String tab "Transmission  " +:+ tabbed)
  = "transmission transmission control"%string ∧
  normalizeProtoName (L := sampleGo)
    (normalizeProtoName (L := sampleGo)
       (String tab "Transmission  " +:+ tabbed))
  = normalizeProtoName (L := sampleGo)
      (String tab "Transmission  " +:+ tabbed) ∧
  ∃ l, normalizeProtoName (L := sampleGo)
         (String tab "Transmission  " +:+ tabbed) = Join l " " ∧
       Forall AsciiLib.word l ∧
       Forall (λ w, AsciiLib.noUpper w = true) l.
Proof.
  assert (Hf : asciiFaithful (L := sampleGo)) by apply asciiGo_faithful.
  assert (Hs : AsciiLib.isASCII (String tab "Transmission  " +:+ tabbed)
               = true) by (vm_compute; reflexivity).
  split; [exact Hf|]. split; [exact Hs|].
  split; [vm_compute; reflexivity|].
  exact (normalizeProtoName_idempotent (H := sampleGo) _ Hf Hs).
Defined.

End MoreWitnesses.
